(** * AI real-time translator: the conversation orchestrator of [src/index.tsx]

    The React component [App] is embedded as a state machine.  One value of
    [State] holds the component's [useState] cells, its [useRef] cells, the
    module-level [recognition] object, and the part of the browser the
    handlers talk to: the log of calls made to the collaborators and the
    continuations that are suspended at an [await] or waiting for a DOM
    event.  Every handler of the source is a computation in a small
    state-and-exception monad; an [Event] is one invocation of a handler by
    the browser's event loop, which runs handlers one after the other.

    Conventions:
    - what the environment decides is an argument of the event: the value
      of [Date.now()], whether a call on a browser object throws, how a
      promise settles;
    - an [async] function is cut at its [await]: the part before suspends a
      closure in a pool of the state, a later event resumes it;
    - React renders, and re-runs the effects whose dependencies changed,
      between two events. *)

From Stdlib Require Import String Ascii ZArith NArith Arith Bool List Lia.
From Stdlib Require Import Sorted.
Import ListNotations.

Set Implicit Arguments.

(** ** JavaScript strings

    A JS string is a sequence of UTF-16 code units. *)

Definition jsstring := list N.

Definition lit (s : string) : jsstring :=
  map N_of_ascii (list_ascii_of_string s).

Fixpoint jsstring_eqb (a b : jsstring) : bool :=
  match a, b with
  | [], [] => true
  | x :: a', y :: b' => N.eqb x y && jsstring_eqb a' b'
  | _, _ => false
  end.

(** [!s] and [if (s)] on a string: only the empty string is falsy. *)
Definition truthy (s : jsstring) : bool :=
  match s with [] => false | _ :: _ => true end.

(** The code units [String.prototype.trim] strips: WhiteSpace and
    LineTerminator of ECMA-262. *)
Definition isWhiteSpace (c : N) : bool :=
  existsb (N.eqb c)
    [9; 10; 11; 12; 13; 32; 160; 5760; 8232; 8233; 8239; 8287; 12288; 65279]%N
  || (N.leb 8192 c && N.leb c 8202).

Fixpoint trimStart (s : jsstring) : jsstring :=
  match s with
  | c :: s' => if isWhiteSpace c then trimStart s' else s
  | [] => []
  end.

Definition trimEnd (s : jsstring) : jsstring := rev (trimStart (rev s)).

Definition trim (s : jsstring) : jsstring := trimEnd (trimStart s).

(** ** Data model *)

(** [type Language = 'ja-JP' | 'zh-TW'] *)
Inductive Language : Type := ja_JP | zh_TW.

(** [type Mode = 'turn-taking' | 'continuous'] *)
Inductive Mode : Type := turn_taking | continuous.

Definition Language_eqb (a b : Language) : bool :=
  match a, b with ja_JP, ja_JP | zh_TW, zh_TW => true | _, _ => false end.

Definition Mode_eqb (a b : Mode) : bool :=
  match a, b with
  | turn_taking, turn_taking | continuous, continuous => true
  | _, _ => false
  end.

(** [prevLang => prevLang === 'ja-JP' ? 'zh-TW' : 'ja-JP'] *)
Definition toggleLang (prevLang : Language) : Language :=
  match prevLang with ja_JP => zh_TW | zh_TW => ja_JP end.

(** [m => m === 'turn-taking' ? 'continuous' : 'turn-taking'] *)
Definition toggleMode (m : Mode) : Mode :=
  match m with turn_taking => continuous | continuous => turn_taking end.

Module LogEntry.
Record t : Type := mk
  { id : Z;
    original : jsstring;
    translated : option jsstring;   (* [null] is [None] *)
    lang : Language }.

(** [{ ...entry, translated: v }] *)
Definition with_translated (v : jsstring) (entry : t) : t :=
  mk (id entry) (original entry) (Some v) (lang entry).
End LogEntry.

(** A chunk of recorded audio, by its size in bytes; a clip is the list of
    the chunks it was assembled from. *)
Definition Chunk := N.
Definition Blob := list Chunk.

(** A JavaScript number as the code gets one from a duration: a whole
    number that is not negative, [Infinity] or [NaN]. *)
Inductive JsNumber : Type :=
| integer (n : N)
| Infinity
| NaN.

(** [tempAudio.duration] is a double that is not negative, [Infinity] or
    [NaN].  The handler only uses [Math.floor(duration / 60)] and
    [Math.floor(duration % 60)], which for a finite duration depend on its
    whole seconds only. *)
Inductive Duration : Type :=
| finite (whole_seconds : N)
| infinite
| not_a_number.

(** [Math.floor(duration / 60)] *)
Definition floor_minutes (duration : Duration) : JsNumber :=
  match duration with
  | finite d => integer (d / 60)%N
  | infinite => Infinity           (* [Infinity / 60] is [Infinity] *)
  | not_a_number => NaN
  end.

(** [Math.floor(duration % 60)] *)
Definition floor_seconds (duration : Duration) : JsNumber :=
  match duration with
  | finite d => integer (d mod 60)%N
  | infinite => NaN                (* [Infinity % 60] is [NaN] *)
  | not_a_number => NaN
  end.

Module Recording.
(** [minutes] and [seconds] are the two numbers that the [duration] string
    is made of. *)
Record t : Type := mk
  { id : Z;
    blob : Blob;
    minutes : JsNumber;
    seconds : JsNumber }.
End Recording.

(** A [MediaStream] handed out by [getUserMedia], by its serial number. *)
Definition MediaStream := nat.

Module MediaRecorder.
Inductive RecordingState : Type := inactive | recording | paused.
Record t : Type := mk
  { state : RecordingState;
    stream : MediaStream }.
Definition is_recording (r : t) : bool :=
  match state r with recording => true | _ => false end.
End MediaRecorder.

Module SpeechRecognition.
(** The module-level [recognition] object: [continuous = false] and
    [interimResults = true] are set once and never change; [lang] is
    assigned at every start of a session. *)
Record t : Type := mk { lang : option Language }.
End SpeechRecognition.

(** One entry of [event.results]: [isFinal] and the transcript of its
    first alternative, [results[i][0].transcript]. *)
Record SpeechRecognitionResult : Type := mkResult
  { isFinal : bool;
    transcript : jsstring }.

(** The closure of a [handleTranslation] call that is suspended at
    [await ai.current.models.generateContent]: what the code after the
    [await] reads from it. *)
Record Request : Type := mkRequest
  { req_id : Z;              (* [newEntry.id] *)
    req_mode : Mode;         (* [mode] of the closure *)
    req_source : Language;   (* [currentLang] of the closure *)
    req_text : jsstring }.

(** Calls on the collaborators that took effect, oldest first. *)
Inductive Call : Type :=
| getUserMedia_call (st : MediaStream)      (* resolved with stream [st] *)
| tracks_stop (st : MediaStream)            (* [getTracks().forEach(stop)] *)
| recorder_start (st : MediaStream)
| recorder_stop (st : MediaStream)
| recognition_start (l : option Language)   (* with [recognition.lang = l] *)
| recognition_stop
| generateContent_call (r : Request).

(** ** The state *)

Record State : Type := mkState
  { (* useState *)
    isListening : bool;
    currentLang : Language;
    mode : Mode;
    log : list LogEntry.t;
    interimTranscript : jsstring;
    error : option jsstring;
    isTranslating : bool;
    recordings : list Recording.t;
    (* useRef: [ai.current] is non-null, and the other [.current] cells *)
    ai : bool;
    intentionalStop : bool;
    mediaRecorderRef : option MediaRecorder.t;
    audioChunksRef : list Chunk;
    streamRef : option MediaStream;
    (* module level *)
    recognition : option SpeechRecognition.t;
    (* [currentLang] as closed over by the [handleTranslation] that the
       registered [handleResult] calls: the effect that registers the
       listeners has dependencies [isListening, mode] only *)
    handlerLang : Language;
    mounted : bool;
    (* browser *)
    calls : list Call;
    getUserMedia_pending : list Language;
    generateContent_pending : list Request;
    stop_queued : nat;
    metadata_pending : list Blob }.

(** Assignments to one cell; the others are kept. *)

Definition set_isListening v (s : State) : State :=
  mkState v (currentLang s) (mode s) (log s) (interimTranscript s) (error s)
    (isTranslating s) (recordings s) (ai s) (intentionalStop s)
    (mediaRecorderRef s) (audioChunksRef s) (streamRef s) (recognition s)
    (handlerLang s) (mounted s) (calls s) (getUserMedia_pending s)
    (generateContent_pending s) (stop_queued s) (metadata_pending s).

Definition set_currentLang v (s : State) : State :=
  mkState (isListening s) v (mode s) (log s) (interimTranscript s) (error s)
    (isTranslating s) (recordings s) (ai s) (intentionalStop s)
    (mediaRecorderRef s) (audioChunksRef s) (streamRef s) (recognition s)
    (handlerLang s) (mounted s) (calls s) (getUserMedia_pending s)
    (generateContent_pending s) (stop_queued s) (metadata_pending s).

Definition set_mode v (s : State) : State :=
  mkState (isListening s) (currentLang s) v (log s) (interimTranscript s)
    (error s) (isTranslating s) (recordings s) (ai s) (intentionalStop s)
    (mediaRecorderRef s) (audioChunksRef s) (streamRef s) (recognition s)
    (handlerLang s) (mounted s) (calls s) (getUserMedia_pending s)
    (generateContent_pending s) (stop_queued s) (metadata_pending s).

Definition set_log v (s : State) : State :=
  mkState (isListening s) (currentLang s) (mode s) v (interimTranscript s)
    (error s) (isTranslating s) (recordings s) (ai s) (intentionalStop s)
    (mediaRecorderRef s) (audioChunksRef s) (streamRef s) (recognition s)
    (handlerLang s) (mounted s) (calls s) (getUserMedia_pending s)
    (generateContent_pending s) (stop_queued s) (metadata_pending s).

Definition set_interimTranscript v (s : State) : State :=
  mkState (isListening s) (currentLang s) (mode s) (log s) v (error s)
    (isTranslating s) (recordings s) (ai s) (intentionalStop s)
    (mediaRecorderRef s) (audioChunksRef s) (streamRef s) (recognition s)
    (handlerLang s) (mounted s) (calls s) (getUserMedia_pending s)
    (generateContent_pending s) (stop_queued s) (metadata_pending s).

Definition set_error v (s : State) : State :=
  mkState (isListening s) (currentLang s) (mode s) (log s)
    (interimTranscript s) v (isTranslating s) (recordings s) (ai s)
    (intentionalStop s) (mediaRecorderRef s) (audioChunksRef s)
    (streamRef s) (recognition s) (handlerLang s) (mounted s) (calls s)
    (getUserMedia_pending s) (generateContent_pending s) (stop_queued s)
    (metadata_pending s).

Definition set_isTranslating v (s : State) : State :=
  mkState (isListening s) (currentLang s) (mode s) (log s)
    (interimTranscript s) (error s) v (recordings s) (ai s)
    (intentionalStop s) (mediaRecorderRef s) (audioChunksRef s)
    (streamRef s) (recognition s) (handlerLang s) (mounted s) (calls s)
    (getUserMedia_pending s) (generateContent_pending s) (stop_queued s)
    (metadata_pending s).

Definition set_recordings v (s : State) : State :=
  mkState (isListening s) (currentLang s) (mode s) (log s)
    (interimTranscript s) (error s) (isTranslating s) v (ai s)
    (intentionalStop s) (mediaRecorderRef s) (audioChunksRef s)
    (streamRef s) (recognition s) (handlerLang s) (mounted s) (calls s)
    (getUserMedia_pending s) (generateContent_pending s) (stop_queued s)
    (metadata_pending s).

Definition set_intentionalStop v (s : State) : State :=
  mkState (isListening s) (currentLang s) (mode s) (log s)
    (interimTranscript s) (error s) (isTranslating s) (recordings s) (ai s)
    v (mediaRecorderRef s) (audioChunksRef s) (streamRef s) (recognition s)
    (handlerLang s) (mounted s) (calls s) (getUserMedia_pending s)
    (generateContent_pending s) (stop_queued s) (metadata_pending s).

Definition set_mediaRecorderRef v (s : State) : State :=
  mkState (isListening s) (currentLang s) (mode s) (log s)
    (interimTranscript s) (error s) (isTranslating s) (recordings s) (ai s)
    (intentionalStop s) v (audioChunksRef s) (streamRef s) (recognition s)
    (handlerLang s) (mounted s) (calls s) (getUserMedia_pending s)
    (generateContent_pending s) (stop_queued s) (metadata_pending s).

Definition set_audioChunksRef v (s : State) : State :=
  mkState (isListening s) (currentLang s) (mode s) (log s)
    (interimTranscript s) (error s) (isTranslating s) (recordings s) (ai s)
    (intentionalStop s) (mediaRecorderRef s) v (streamRef s) (recognition s)
    (handlerLang s) (mounted s) (calls s) (getUserMedia_pending s)
    (generateContent_pending s) (stop_queued s) (metadata_pending s).

Definition set_streamRef v (s : State) : State :=
  mkState (isListening s) (currentLang s) (mode s) (log s)
    (interimTranscript s) (error s) (isTranslating s) (recordings s) (ai s)
    (intentionalStop s) (mediaRecorderRef s) (audioChunksRef s) v
    (recognition s) (handlerLang s) (mounted s) (calls s)
    (getUserMedia_pending s) (generateContent_pending s) (stop_queued s)
    (metadata_pending s).

Definition set_recognition v (s : State) : State :=
  mkState (isListening s) (currentLang s) (mode s) (log s)
    (interimTranscript s) (error s) (isTranslating s) (recordings s) (ai s)
    (intentionalStop s) (mediaRecorderRef s) (audioChunksRef s)
    (streamRef s) v (handlerLang s) (mounted s) (calls s)
    (getUserMedia_pending s) (generateContent_pending s) (stop_queued s)
    (metadata_pending s).

Definition set_handlerLang v (s : State) : State :=
  mkState (isListening s) (currentLang s) (mode s) (log s)
    (interimTranscript s) (error s) (isTranslating s) (recordings s) (ai s)
    (intentionalStop s) (mediaRecorderRef s) (audioChunksRef s)
    (streamRef s) (recognition s) v (mounted s) (calls s)
    (getUserMedia_pending s) (generateContent_pending s) (stop_queued s)
    (metadata_pending s).

Definition set_mounted v (s : State) : State :=
  mkState (isListening s) (currentLang s) (mode s) (log s)
    (interimTranscript s) (error s) (isTranslating s) (recordings s) (ai s)
    (intentionalStop s) (mediaRecorderRef s) (audioChunksRef s)
    (streamRef s) (recognition s) (handlerLang s) v (calls s)
    (getUserMedia_pending s) (generateContent_pending s) (stop_queued s)
    (metadata_pending s).

Definition set_calls v (s : State) : State :=
  mkState (isListening s) (currentLang s) (mode s) (log s)
    (interimTranscript s) (error s) (isTranslating s) (recordings s) (ai s)
    (intentionalStop s) (mediaRecorderRef s) (audioChunksRef s)
    (streamRef s) (recognition s) (handlerLang s) (mounted s) v
    (getUserMedia_pending s) (generateContent_pending s) (stop_queued s)
    (metadata_pending s).

Definition set_getUserMedia_pending v (s : State) : State :=
  mkState (isListening s) (currentLang s) (mode s) (log s)
    (interimTranscript s) (error s) (isTranslating s) (recordings s) (ai s)
    (intentionalStop s) (mediaRecorderRef s) (audioChunksRef s)
    (streamRef s) (recognition s) (handlerLang s) (mounted s) (calls s) v
    (generateContent_pending s) (stop_queued s) (metadata_pending s).

Definition set_generateContent_pending v (s : State) : State :=
  mkState (isListening s) (currentLang s) (mode s) (log s)
    (interimTranscript s) (error s) (isTranslating s) (recordings s) (ai s)
    (intentionalStop s) (mediaRecorderRef s) (audioChunksRef s)
    (streamRef s) (recognition s) (handlerLang s) (mounted s) (calls s)
    (getUserMedia_pending s) v (stop_queued s) (metadata_pending s).

Definition set_stop_queued v (s : State) : State :=
  mkState (isListening s) (currentLang s) (mode s) (log s)
    (interimTranscript s) (error s) (isTranslating s) (recordings s) (ai s)
    (intentionalStop s) (mediaRecorderRef s) (audioChunksRef s)
    (streamRef s) (recognition s) (handlerLang s) (mounted s) (calls s)
    (getUserMedia_pending s) (generateContent_pending s) v
    (metadata_pending s).

Definition set_metadata_pending v (s : State) : State :=
  mkState (isListening s) (currentLang s) (mode s) (log s)
    (interimTranscript s) (error s) (isTranslating s) (recordings s) (ai s)
    (intentionalStop s) (mediaRecorderRef s) (audioChunksRef s)
    (streamRef s) (recognition s) (handlerLang s) (mounted s) (calls s)
    (getUserMedia_pending s) (generateContent_pending s) (stop_queued s) v.

(** ** Handlers as computations

    A handler runs on the state and either completes or throws; what it
    wrote before throwing stays written, as in JavaScript. *)

Inductive Completion (A : Type) : Type :=
| normal (a : A)
| thrown (e : jsstring).
Arguments thrown {A} e.

Definition M (A : Type) : Type := State -> Completion A * State.

Definition ret {A} (a : A) : M A := fun s => (normal a, s).

Definition throw {A} (e : jsstring) : M A := fun s => (thrown e, s).

Definition bind {A B} (m : M A) (k : A -> M B) : M B :=
  fun s =>
    match m s with
    | (normal a, s') => k a s'
    | (thrown e, s') => (thrown e, s')
    end.

(** [try { body } catch (e) { handler e }] *)
Definition try_catch {A} (body : M A) (handler : jsstring -> M A) : M A :=
  fun s =>
    match body s with
    | (normal a, s') => (normal a, s')
    | (thrown e, s') => handler e s'
    end.

Definition gets {A} (f : State -> A) : M A := fun s => (normal (f s), s).

Definition modify (f : State -> State) : M unit := fun s => (normal tt, f s).

Declare Scope handler_scope.
Delimit Scope handler_scope with handler.
Notation "x <- m ;; k" := (bind m (fun x => k))
  (at level 61, m at next level, right associativity) : handler_scope.
Notation "m ;; k" := (bind m (fun _ => k))
  (at level 61, right associativity) : handler_scope.
Local Open Scope handler_scope.

(** The state a handler leaves behind, however it completes. *)
Definition exec (m : M unit) (s : State) : State := snd (m s).

Definition skip : M unit := ret tt.

(** React setters, with a value and with an updater function. *)
Definition setIsListening (v : bool) : M unit := modify (set_isListening v).
Definition setError (v : option jsstring) : M unit := modify (set_error v).
Definition setIsTranslating (v : bool) : M unit := modify (set_isTranslating v).
Definition setInterimTranscript (v : jsstring) : M unit :=
  modify (set_interimTranscript v).
Definition setCurrentLang (f : Language -> Language) : M unit :=
  modify (fun s => set_currentLang (f (currentLang s)) s).
Definition setMode (f : Mode -> Mode) : M unit :=
  modify (fun s => set_mode (f (mode s)) s).
Definition setLog (f : list LogEntry.t -> list LogEntry.t) : M unit :=
  modify (fun s => set_log (f (log s)) s).
Definition setRecordings (f : list Recording.t -> list Recording.t) : M unit :=
  modify (fun s => set_recordings (f (recordings s)) s).

(** A call on a collaborator that takes effect. *)
Definition call (c : Call) : M unit :=
  modify (fun s => set_calls (calls s ++ [c]) s).

(** *** The browser objects the handlers call *)

(** What the environment answers to one run of the code after
    [await getUserMedia]: which of its calls throws, if any. *)
Inductive StartOutcome : Type :=
| getUserMedia_rejects (msg : jsstring)
| MediaRecorder_throws (msg : jsstring)        (* [new MediaRecorder(stream)] *)
| recorder_start_throws (msg : jsstring)       (* [mediaRecorderRef.current.start()] *)
| recognition_start_throws (msg : jsstring)    (* [recognition.start()] *)
| all_succeed.

(** Streams handed out so far. *)
Fixpoint acquired (cs : list Call) : list MediaStream :=
  match cs with
  | [] => []
  | getUserMedia_call st :: cs' => st :: acquired cs'
  | _ :: cs' => acquired cs'
  end.

(** Streams whose tracks were stopped, once per call. *)
Fixpoint released (cs : list Call) : list MediaStream :=
  match cs with
  | [] => []
  | tracks_stop st :: cs' => st :: released cs'
  | _ :: cs' => released cs'
  end.

(** [await navigator.mediaDevices.getUserMedia({ audio: true })] *)
Definition getUserMedia (o : StartOutcome) : M MediaStream :=
  match o with
  | getUserMedia_rejects msg => throw msg
  | _ =>
      st <- gets (fun s => length (acquired (calls s))) ;;
      call (getUserMedia_call st) ;;
      ret st
  end.

(** [new MediaRecorder(stream)] *)
Definition new_MediaRecorder (o : StartOutcome) (st : MediaStream)
  : M MediaRecorder.t :=
  match o with
  | MediaRecorder_throws msg => throw msg
  | _ => ret (MediaRecorder.mk MediaRecorder.inactive st)
  end.

(** [mediaRecorderRef.current.start()] *)
Definition MediaRecorder_start (o : StartOutcome) : M unit :=
  match o with
  | recorder_start_throws msg => throw msg
  | _ =>
      r <- gets mediaRecorderRef ;;
      match r with
      | Some mr =>
          let st := MediaRecorder.stream mr in
          modify (set_mediaRecorderRef
                    (Some (MediaRecorder.mk MediaRecorder.recording st))) ;;
          call (recorder_start st)
      | None => skip
      end
  end.

(** [mediaRecorderRef.current.stop()] on a recorder that is recording: the
    recorder becomes inactive at once and its [stop] event is queued. *)
Definition MediaRecorder_stop (mr : MediaRecorder.t) : M unit :=
  let st := MediaRecorder.stream mr in
  modify (set_mediaRecorderRef
            (Some (MediaRecorder.mk MediaRecorder.inactive st))) ;;
  call (recorder_stop st) ;;
  modify (fun s => set_stop_queued (S (stop_queued s)) s).

(** [recognition.start()]; [throws] is what it throws, if it does. *)
Definition SpeechRecognition_start (throws : option jsstring) : M unit :=
  match throws with
  | Some msg => throw msg
  | None =>
      r <- gets recognition ;;
      match r with
      | Some rec => call (recognition_start (SpeechRecognition.lang rec))
      | None => skip
      end
  end.

Definition recognition_start_outcome (o : StartOutcome) : option jsstring :=
  match o with
  | recognition_start_throws msg => Some msg
  | _ => None
  end.

(** *** [stopListeningAndRecording] *)

Definition stopListeningAndRecording : M unit :=
  r <- gets recognition ;;
  match r with
  | Some _ => call recognition_stop
  | None => skip
  end ;;
  m <- gets mediaRecorderRef ;;
  match m with
  | Some mr =>
      if MediaRecorder.is_recording mr then MediaRecorder_stop mr else skip
  | None => skip
  end ;;
  setIsListening false ;;
  modify (set_intentionalStop false).

(** *** [startListeningAndRecording]

    The part up to [await getUserMedia] suspends the closure, which holds
    the [currentLang] of the render the click belongs to. *)

Definition startListeningAndRecording : M unit :=
  r <- gets recognition ;;
  match r with
  | None => skip
  | Some _ =>
      l <- gets currentLang ;;
      modify (fun s =>
                set_getUserMedia_pending (getUserMedia_pending s ++ [l]) s)
  end.

(** The rest, run when the promise settles. *)
Definition startListeningAndRecording_resume
  (currentLang : Language) (o : StartOutcome) : M unit :=
  try_catch
    (stream <- getUserMedia o ;;
     modify (set_streamRef (Some stream)) ;;
     mr <- new_MediaRecorder o stream ;;
     modify (set_mediaRecorderRef (Some mr)) ;;
     MediaRecorder_start o ;;
     modify (set_intentionalStop false) ;;
     modify (set_recognition
               (Some (SpeechRecognition.mk (Some currentLang)))) ;;
     SpeechRecognition_start (recognition_start_outcome o) ;;
     setIsListening true ;;
     setError None)
    (fun e =>
       setError (Some (lit "Could not start microphone: " ++ e))).

(** [mediaRecorderRef.current.ondataavailable] *)
Definition ondataavailable (size : N) : M unit :=
  if N.ltb 0 size
  then modify (fun s => set_audioChunksRef (audioChunksRef s ++ [size]) s)
  else skip.

(** [mediaRecorderRef.current.onstop]: the clip is handed to a temporary
    audio element that reports its duration later; the chunks are dropped
    and the stream in [streamRef] is released. *)
Definition onstop : M unit :=
  audioBlob <- gets audioChunksRef ;;
  modify (fun s => set_metadata_pending (metadata_pending s ++ [audioBlob]) s) ;;
  modify (set_audioChunksRef []) ;;
  st <- gets streamRef ;;
  match st with
  | Some stream =>
      call (tracks_stop stream) ;;
      modify (set_streamRef None)
  | None => skip
  end.

(** [tempAudio.onloadedmetadata]; [duration] is [tempAudio.duration]. *)
Definition onloadedmetadata (audioBlob : Blob) (now : Z)
  (duration : Duration) : M unit :=
  let minutes := floor_minutes duration in
  let seconds := floor_seconds duration in
  let newRecording := Recording.mk now audioBlob minutes seconds in
  setRecordings (fun prev => prev ++ [newRecording]).

(** *** [handleListenToggle] *)

Definition handleListenToggle : M unit :=
  l <- gets isListening ;;
  if l
  then modify (set_intentionalStop true) ;; stopListeningAndRecording
  else startListeningAndRecording.

(** *** [handleTranslation]

    [now] is what [Date.now()] returns.  [currentLang] and [mode] are those
    of the closure: [mode] is a dependency of the effect that registers the
    listeners, so it is the current one; [currentLang] is not, so it is
    [handlerLang]. *)

Definition handleTranslation (text : jsstring) (now : Z) : M unit :=
  a <- gets ai ;;
  if negb (truthy text) || negb a then skip
  else
    currentLang <- gets handlerLang ;;
    mode <- gets mode ;;
    let newEntry := LogEntry.mk now text None currentLang in
    setLog (fun prevLog => prevLog ++ [newEntry]) ;;
    setIsTranslating true ;;
    setInterimTranscript [] ;;
    let req := mkRequest (LogEntry.id newEntry) mode currentLang text in
    call (generateContent_call req) ;;
    modify (fun s =>
              set_generateContent_pending (generateContent_pending s ++ [req]) s).

(** How the promise of [generateContent] settles. *)
Inductive Settled : Type :=
| fulfilled (text : jsstring)     (* [response.text] *)
| rejected (err : jsstring).

Definition await (r : Settled) : M jsstring :=
  match r with
  | fulfilled text => ret text
  | rejected err => throw err
  end.

(** [prevLog.map(entry => entry.id === id ? { ...entry, translated: v } : entry)] *)
Definition fill (id : Z) (v : jsstring) (prevLog : list LogEntry.t)
  : list LogEntry.t :=
  map (fun entry =>
         if Z.eqb (LogEntry.id entry) id
         then LogEntry.with_translated v entry
         else entry)
      prevLog.

(** The code after the [await], with its [catch] and [finally]. *)
Definition handleTranslation_resume (req : Request) (r : Settled) : M unit :=
  try_catch
    (translatedText <- await r ;;
     setLog (fill (req_id req) translatedText) ;;
     if Mode_eqb (req_mode req) turn_taking
     then setCurrentLang toggleLang
     else skip)
    (fun err =>
       setError (Some (lit "Failed to translate text.")) ;;
       setLog (fill (req_id req) (lit "Translation failed."))) ;;
  setIsTranslating false.

(** *** The listeners on [recognition] *)

(** The [for] loop of [handleResult] over [event.results], from
    [event.resultIndex] on. *)
Fixpoint collect (results : list SpeechRecognitionResult)
  (finalTranscript interim : jsstring) : jsstring * jsstring :=
  match results with
  | [] => (finalTranscript, interim)
  | r :: results' =>
      if isFinal r
      then collect results' (finalTranscript ++ transcript r) interim
      else collect results' finalTranscript (interim ++ transcript r)
  end.

Definition handleResult (resultIndex : nat)
  (results : list SpeechRecognitionResult) (now : Z) : M unit :=
  let (finalTranscript, interim) := collect (skipn resultIndex results) [] [] in
  setInterimTranscript interim ;;
  if truthy finalTranscript
  then handleTranslation (trim finalTranscript) now
  else skip.

Definition handleError (kind : jsstring) : M unit :=
  if jsstring_eqb kind (lit "no-speech") then skip
  else
    setError (Some (lit "Speech recognition error: " ++ kind)) ;;
    stopListeningAndRecording.

(** [restart] is what [recognition.start()] throws, should the handler
    come to call it. *)
Definition handleEnd (restart : option jsstring) : M unit :=
  i <- gets intentionalStop ;;
  if i then stopListeningAndRecording
  else
    l <- gets isListening ;;
    m <- gets mode ;;
    if l && Mode_eqb m continuous
    then try_catch (SpeechRecognition_start restart)
                   (fun e => stopListeningAndRecording)
    else stopListeningAndRecording.

(** *** Mounting and unmounting *)

(** The first render and the mount effect.  [API_KEY] and
    [SpeechRecognition] say whether the key and the engine are there. *)
Definition mount (API_KEY SpeechRecognition : bool) : State :=
  {| isListening := false;
     currentLang := ja_JP;
     mode := turn_taking;
     log := [];
     interimTranscript := [];
     error :=
       if negb API_KEY
       then Some (lit "API_KEY environment variable not set.")
       else if negb SpeechRecognition
       then Some (lit "Speech recognition is not supported in this browser.")
       else None;
     isTranslating := false;
     recordings := [];
     ai := API_KEY;
     intentionalStop := false;
     mediaRecorderRef := None;
     audioChunksRef := [];
     streamRef := None;
     recognition :=
       if SpeechRecognition then Some (SpeechRecognition.mk None) else None;
     handlerLang := ja_JP;
     mounted := true;
     calls := [];
     getUserMedia_pending := [];
     generateContent_pending := [];
     stop_queued := 0;
     metadata_pending := [] |}.

(** The cleanup of the mount effect.  The effect returns it only past the
    [API_KEY] check, and it closes over the [recordings] of the first
    render, which are none. *)
Definition cleanup : M unit :=
  a <- gets ai ;;
  if a
  then
    st <- gets streamRef ;;
    match st with
    | Some stream => call (tracks_stop stream)
    | None => skip
    end
  else skip.

(** *** The recordings panel *)

(** A handler that returns a value: the value, if it completes, and the
    state it leaves behind. *)
Definition value {A : Type} (m : M A) (s : State) : option A :=
  match fst (m s) with
  | normal a => Some a
  | thrown _ => None
  end.

Definition after {A : Type} (m : M A) (s : State) : State := snd (m s).

(** [handleDeleteRecording].  The handler belongs to the current render,
    so its [recordings] are the current ones.  A recording owns the object
    URL made for it in [onstop]; the value returned is the recording whose
    URL is handed to [URL.revokeObjectURL], if [find] finds one. *)
Definition handleDeleteRecording (id : Z) : M (option Recording.t) :=
  recordings <- gets recordings ;;
  let recordingToDelete :=
    find (fun r => Z.eqb (Recording.id r) id) recordings in
  setRecordings (filter (fun r => negb (Z.eqb (Recording.id r) id))) ;;
  ret recordingToDelete.

(** ** The event loop *)

Inductive Event : Type :=
| click_mic                       (* the microphone button *)
| click_lang                      (* the language button *)
| click_mode                      (* the mode switch *)
| getUserMedia_settled (k : nat) (o : StartOutcome)
| recognition_result (resultIndex : nat)
    (results : list SpeechRecognitionResult) (now : Z)
| recognition_error (kind : jsstring)
| recognition_end (restart : option jsstring)
| generateContent_settled (k : nat) (r : Settled)
| recorder_dataavailable (size : N)
| recorder_stopped
| audio_loadedmetadata (k : nat) (now : Z) (duration : Duration)
| click_delete (id : Z)           (* the delete button of a recording *)
| unmount.

(** The [k]-th element of a pool of suspended continuations, and the rest. *)
Fixpoint pick {A : Type} (k : nat) (l : list A) : option (A * list A) :=
  match l, k with
  | [], _ => None
  | x :: l', O => Some (x, l')
  | x :: l', S k' =>
      match pick k' l' with
      | Some (y, rest) => Some (y, x :: rest)
      | None => None
      end
  end.

(** What the browser runs for an event.  A button that is [disabled] takes
    no click; the listeners on [recognition] are registered only if there
    is an engine; an event for a continuation that does not exist does not
    happen. *)
Definition handler (e : Event) : M unit :=
  match e with
  | click_mic =>
      t <- gets isTranslating ;;
      if t then skip else handleListenToggle
  | click_lang =>
      l <- gets isListening ;;
      if l then skip else setCurrentLang toggleLang
  | click_mode =>
      l <- gets isListening ;;
      if l then skip else setMode toggleMode
  | getUserMedia_settled k o =>
      p <- gets getUserMedia_pending ;;
      match pick k p with
      | Some (l, rest) =>
          modify (set_getUserMedia_pending rest) ;;
          startListeningAndRecording_resume l o
      | None => skip
      end
  | recognition_result resultIndex results now =>
      r <- gets recognition ;;
      match r with
      | Some _ => handleResult resultIndex results now
      | None => skip
      end
  | recognition_error kind =>
      r <- gets recognition ;;
      match r with
      | Some _ => handleError kind
      | None => skip
      end
  | recognition_end restart =>
      r <- gets recognition ;;
      match r with
      | Some _ => handleEnd restart
      | None => skip
      end
  | generateContent_settled k r =>
      p <- gets generateContent_pending ;;
      match pick k p with
      | Some (req, rest) =>
          modify (set_generateContent_pending rest) ;;
          handleTranslation_resume req r
      | None => skip
      end
  | recorder_dataavailable size =>
      m <- gets mediaRecorderRef ;;
      match m with
      | Some _ => ondataavailable size
      | None => skip
      end
  | recorder_stopped =>
      q <- gets stop_queued ;;
      match q with
      | S q' => modify (set_stop_queued q') ;; onstop
      | O => skip
      end
  | audio_loadedmetadata k now duration =>
      p <- gets metadata_pending ;;
      match pick k p with
      | Some (audioBlob, rest) =>
          modify (set_metadata_pending rest) ;;
          onloadedmetadata audioBlob now duration
      | None => skip
      end
  | click_delete id =>
      handleDeleteRecording id ;; skip
  | unmount =>
      cleanup ;;
      modify (set_mounted false)
  end.

(** After a handler React renders again, and the effect with dependencies
    [isListening, mode] registers fresh listeners, closing over the
    [currentLang] of that render, only if one of the two changed. *)
Definition commit (before after : State) : State :=
  if Bool.eqb (isListening before) (isListening after)
     && Mode_eqb (mode before) (mode after)
  then after
  else set_handlerLang (currentLang after) after.

(** One turn of the event loop.  The model follows the component until it
    is unmounted: what the browser still delivers afterwards, the [stop]
    event of a recorder or a promise that settles, is not followed. *)
Definition step (s : State) (e : Event) : State :=
  if mounted s then commit s (exec (handler e) s) else s.

Definition run (s : State) (tr : list Event) : State := fold_left step tr s.

(** ** Observations on events and traces *)

(** The speech engine reporting one final transcript: a [result] event
    whose only result is final. *)
Definition onFinal (text : jsstring) (now : Z) : Event :=
  recognition_result 0 [mkResult true text] now.

(** The text and the clock reading with which an event makes
    [handleResult] call [handleTranslation]. *)
Definition finalText (e : Event) : option (jsstring * Z) :=
  match e with
  | recognition_result resultIndex results now =>
      let finalTranscript := fst (collect (skipn resultIndex results) [] []) in
      if truthy finalTranscript then Some (trim finalTranscript, now) else None
  | _ => None
  end.

(** The event opens a log entry: [handleTranslation] is called and gets
    past its guard. *)
Definition opens (s : State) (e : Event) : option (jsstring * Z) :=
  match recognition s, finalText e with
  | Some _, Some (text, now) =>
      if mounted s && ai s && truthy text then Some (text, now) else None
  | _, _ => None
  end.

(** The event resumes a suspended [handleTranslation]. *)
Definition settles (s : State) (e : Event) : option (Request * Settled) :=
  match e with
  | generateContent_settled k r =>
      match pick k (generateContent_pending s) with
      | Some (req, _) => if mounted s then Some (req, r) else None
      | None => None
      end
  | _ => None
  end.

(** The clock readings at which the events of a trace open log entries. *)
Fixpoint stamps (s : State) (tr : list Event) : list Z :=
  match tr with
  | [] => []
  | e :: tr' =>
      match opens s e with
      | Some (_, now) => now :: stamps (step s e) tr'
      | None => stamps (step s e) tr'
      end
  end.

(** The final transcripts of a trace that are not blank, trimmed, in the
    order of arrival. *)
Fixpoint spoken (tr : list Event) : list jsstring :=
  match tr with
  | [] => []
  | e :: tr' =>
      match finalText e with
      | Some (text, _) => if truthy text then text :: spoken tr' else spoken tr'
      | None => spoken tr'
      end
  end.

(** The requests sent to the translation service. *)
Fixpoint requests (cs : list Call) : list Request :=
  match cs with
  | [] => []
  | generateContent_call r :: cs' => r :: requests cs'
  | _ :: cs' => requests cs'
  end.

Definition is_unmount (e : Event) : bool :=
  match e with unmount => true | _ => false end.

(** The user switching the language or the mode by hand. *)
Definition is_manual (e : Event) : bool :=
  match e with click_lang | click_mode => true | _ => false end.

(** The translations of a trace that succeed: promises of suspended
    [handleTranslation] calls that are fulfilled. *)
Fixpoint successes (s : State) (tr : list Event) : nat :=
  match tr with
  | [] => 0
  | e :: tr' =>
      match settles s e with
      | Some (_, fulfilled _) => S (successes (step s e) tr')
      | _ => successes (step s e) tr'
      end
  end.

(** Every request of a pool was sent in turn-taking mode. *)
Definition all_turn_taking (p : list Request) : Prop :=
  Forall (fun r => req_mode r = turn_taking) p.

(** No session is listening and the recorder, if there is one, is not
    recording. *)
Definition Idle (s : State) : Prop :=
  isListening s = false /\
  match mediaRecorderRef s with
  | Some mr => MediaRecorder.is_recording mr = false
  | None => True
  end.

(** A session is listening, with its recorder recording from stream [st]. *)
Definition Listening (s : State) (st : MediaStream) : Prop :=
  isListening s = true /\
  mediaRecorderRef s =
    Some (MediaRecorder.mk MediaRecorder.recording st).

(** Streams that were handed out and whose tracks were not stopped since:
    every release cancels one acquisition of the same stream. *)
Fixpoint remove_one (st : MediaStream) (l : list MediaStream)
  : list MediaStream :=
  match l with
  | [] => []
  | x :: l' => if Nat.eqb x st then l' else x :: remove_one st l'
  end.

Definition live (cs : list Call) : list MediaStream :=
  fold_left (fun l st => remove_one st l) (released cs) (acquired cs).

(** A start fails after the microphone was acquired when the construction
    of the recorder, its start, or the start of the engine throws. *)
Definition fails_after_acquisition (o : StartOutcome) : bool :=
  match o with
  | MediaRecorder_throws _ | recorder_start_throws _
  | recognition_start_throws _ => true
  | getUserMedia_rejects _ | all_succeed => false
  end.

(** States used as examples: a session that has just started, in each
    mode. *)
Definition listening_turn_taking : State :=
  run (mount true true) [click_mic; getUserMedia_settled 0 all_succeed].

Definition listening_continuous : State :=
  run (mount true true)
      [click_mode; click_mic; getUserMedia_settled 0 all_succeed].

(** ** The recordings panel and the prompt *)

(** [link.download] in [handleDownloadRecording]:
    [recording.name.replace(/[:/]/g, '-')] followed by [".wav"].  The code
    units of [':'], ['/'] and ['-'] are 58, 47 and 45. *)
Definition download (name : jsstring) : jsstring :=
  map (fun c => if N.eqb c 58 || N.eqb c 47 then 45%N else c) name
  ++ lit ".wav".

(** [sourceLangText] and [targetLangText] of [handleTranslation]. *)
Definition sourceLangText (currentLang : Language) : jsstring :=
  match currentLang with
  | ja_JP => lit "Japanese"
  | zh_TW => lit "Traditional Chinese"
  end.

Definition targetLangText (currentLang : Language) : jsstring :=
  match currentLang with
  | ja_JP => lit "Traditional Chinese"
  | zh_TW => lit "Japanese"
  end.

(** The [prompt] sent with a request; 10 is the line feed and 34 the
    double quote. *)
Definition prompt (req : Request) : jsstring :=
  lit "Translate the following " ++ sourceLangText (req_source req)
  ++ lit " text to " ++ targetLangText (req_source req)
  ++ lit ". Preserve the context, tone, and any professional terminology. Return only the translated text, without any additional explanations or introductory phrases."
  ++ [10; 10]%N ++ lit "Text: " ++ [34%N] ++ req_text req ++ [34%N].

(** ** Further observations *)

(** A text that is not empty and neither begins nor ends with a code unit
    that [trim] strips. *)
Definition trimmed (text : jsstring) : Prop :=
  match text with
  | [] => False
  | c :: _ => isWhiteSpace c = false /\ isWhiteSpace (last text c) = false
  end.

(** What never changes in a log entry, and what identifies a request. *)
Definition entry_key (entry : LogEntry.t) : Z * jsstring * Language :=
  (LogEntry.id entry, LogEntry.original entry, LogEntry.lang entry).

Definition request_key (req : Request) : Z * jsstring * Language :=
  (req_id req, req_text req, req_source req).

(** Events of the translation traffic: final or interim results, and
    translations that settle. *)
Definition is_traffic (e : Event) : bool :=
  match e with
  | recognition_result _ _ _ | generateContent_settled _ _ => true
  | _ => false
  end.

(** The event resumes a start. *)
Definition is_start (e : Event) : bool :=
  match e with getUserMedia_settled _ _ => true | _ => false end.

(** The languages the engine was started with, oldest first. *)
Fixpoint starts (cs : list Call) : list (option Language) :=
  match cs with
  | [] => []
  | recognition_start l :: cs' => l :: starts cs'
  | _ :: cs' => starts cs'
  end.

(** The clips of a trace whose metadata arrive. *)
Definition is_loadedmetadata (e : Event) : bool :=
  match e with audio_loadedmetadata _ _ _ => true | _ => false end.

(** The ids on which the delete button was clicked along a trace. *)
Definition deleted (tr : list Event) : list Z :=
  flat_map (fun e => match e with click_delete id => [id] | _ => [] end) tr.

(** Every request of a pool was sent in continuous mode. *)
Definition all_continuous (p : list Request) : Prop :=
  Forall (fun r => req_mode r = continuous) p.

(** With no engine nothing is ever started. *)
Definition never_started (s : State) : Prop :=
  recognition s = None /\ isListening s = false /\ calls s = [] /\
  streamRef s = None /\ getUserMedia_pending s = [] /\ log s = [].

(** * Properties *)

(** ** Strings and pools *)

Arguments trim : simpl never.
Arguments lit : simpl never.


Lemma trim_truthy (text : jsstring) :
  truthy (trim text) = true -> truthy text = true.
Proof. destruct text; [discriminate | reflexivity]. Qed.

Lemma pick_app {A : Type} (l : list A) (x : A) (r : list A) :
  pick (length l) (l ++ x :: r) = Some (x, l ++ r).
Proof.
  induction l as [|y l IH]; cbn; [reflexivity|].
  now rewrite IH.
Qed.

Lemma pick_length {A : Type} (k : nat) (l : list A) (x : A) (r : list A) :
  pick k l = Some (x, r) -> length l = S (length r).
Proof.
  revert k x r; induction l as [|y l IH]; intros [|k] x r; cbn;
    try discriminate.
  - intros [= _ <-]; reflexivity.
  - destruct (pick k l) as [[z rest]|] eqn:E; [|discriminate].
    intros [= _ <-]; cbn; f_equal; eauto.
Qed.

Lemma pick_Forall {A : Type} (P : A -> Prop) (k : nat) (l : list A)
  (x : A) (r : list A) :
  pick k l = Some (x, r) -> Forall P l -> P x /\ Forall P r.
Proof.
  revert k x r; induction l as [|y l IH]; intros [|k] x r; cbn;
    try discriminate.
  - intros [= <- <-] H; inversion H; auto.
  - destruct (pick k l) as [[z rest]|] eqn:E; [|discriminate].
    intros [= <- <-] H; inversion H; subst.
    destruct (IH _ _ _ E) as [? ?]; auto.
Qed.

(** ** What one turn of the loop does to each cell *)

Ltac break_match :=
  match goal with
  | |- context [match ?x with _ => _ end] =>
      lazymatch x with
      | context [match _ with _ => _ end] => fail
      | _ => destruct x eqn:?
      end
  end.

Ltac unfold_handlers :=
  unfold step, commit, exec, handler, handleListenToggle,
    startListeningAndRecording, startListeningAndRecording_resume,
    stopListeningAndRecording, handleResult, handleTranslation,
    handleTranslation_resume, handleError, handleEnd, cleanup, onstop,
    onloadedmetadata, ondataavailable, MediaRecorder_stop, MediaRecorder_start,
    handleDeleteRecording,
    new_MediaRecorder, getUserMedia, SpeechRecognition_start, await,
    setIsListening, setError, setIsTranslating, setInterimTranscript,
    setCurrentLang, setMode, setLog, setRecordings, call, skip,
    try_catch, bind, gets, modify, ret, throw.

Ltac by_cases := unfold_handlers; cbn; repeat (break_match; cbn).

Ltac bools :=
  rewrite ?andb_true_iff, ?andb_false_iff, ?orb_true_iff, ?orb_false_iff,
    ?negb_true_iff, ?negb_false_iff in *;
  intuition congruence.

Ltac settle := solve [reflexivity | discriminate | congruence | bools].

Lemma log_step (s : State) (e : Event) :
  log (step s e) =
  match opens s e, settles s e with
  | Some (text, now), _ =>
      log s ++ [LogEntry.mk now text None (handlerLang s)]
  | None, Some (req, fulfilled v) => fill (req_id req) v (log s)
  | None, Some (req, rejected _) =>
      fill (req_id req) (lit "Translation failed.") (log s)
  | None, None => log s
  end.
Proof.
  unfold opens, settles, finalText; destruct e; by_cases; settle.
Qed.

Lemma generateContent_pending_step (s : State) (e : Event) :
  generateContent_pending (step s e) =
  match opens s e, e with
  | Some (text, now), _ =>
      generateContent_pending s
        ++ [mkRequest now (mode s) (handlerLang s) text]
  | None, generateContent_settled k _ =>
      match pick k (generateContent_pending s) with
      | Some (_, rest) => if mounted s then rest else generateContent_pending s
      | None => generateContent_pending s
      end
  | None, _ => generateContent_pending s
  end.
Proof.
  unfold opens, finalText; destruct e; by_cases; settle.
Qed.

Lemma requests_app (cs cs' : list Call) :
  requests (cs ++ cs') = requests cs ++ requests cs'.
Proof.
  induction cs as [|c cs IH]; cbn; [reflexivity|].
  destruct c; cbn; now rewrite ?IH.
Qed.

Lemma requests_step (s : State) (e : Event) :
  requests (calls (step s e)) =
  match opens s e with
  | Some (text, now) =>
      requests (calls s) ++ [mkRequest now (mode s) (handlerLang s) text]
  | None => requests (calls s)
  end.
Proof.
  unfold opens, finalText; destruct e; by_cases;
    rewrite ?requests_app; cbn; rewrite ?app_nil_r; settle.
Qed.

Lemma currentLang_step (s : State) (e : Event) :
  currentLang (step s e) =
  match e, settles s e with
  | click_lang, _ =>
      if mounted s && negb (isListening s)
      then toggleLang (currentLang s)
      else currentLang s
  | _, Some (req, fulfilled _) =>
      if Mode_eqb (req_mode req) turn_taking
      then toggleLang (currentLang s)
      else currentLang s
  | _, _ => currentLang s
  end.
Proof.
  unfold settles; destruct e; by_cases; settle.
Qed.

Lemma mode_step (s : State) (e : Event) :
  mode (step s e) =
  match e with
  | click_mode =>
      if mounted s && negb (isListening s) then toggleMode (mode s) else mode s
  | _ => mode s
  end.
Proof.
  destruct e; by_cases; settle.
Qed.

Lemma ai_step (s : State) (e : Event) : ai (step s e) = ai s.
Proof.
  destruct e; by_cases; settle.
Qed.

Lemma mounted_step (s : State) (e : Event) :
  mounted (step s e) = mounted s && negb (is_unmount e).
Proof.
  destruct e; by_cases; settle.
Qed.

Lemma recognition_step (s : State) (e : Event) :
  recognition s <> None -> recognition (step s e) <> None.
Proof.
  intros H; destruct e; by_cases; settle.
Qed.

Lemma intentionalStop_step (s : State) (e : Event) :
  intentionalStop s = false -> intentionalStop (step s e) = false.
Proof.
  intros H; destruct e; by_cases; settle.
Qed.

(** ** The stop operation *)

(** What [stopListeningAndRecording] leaves behind, in any state. *)
Lemma stop_stops (s : State) :
  let s' := exec stopListeningAndRecording s in
  isListening s' = false /\ intentionalStop s' = false /\
  error s' = error s /\ recordings s' = recordings s /\
  metadata_pending s' = metadata_pending s /\ log s' = log s /\
  currentLang s' = currentLang s.
Proof.
  by_cases; repeat split; reflexivity.
Qed.

Lemma stop_Idle (s : State) : Idle (exec stopListeningAndRecording s).
Proof.
  unfold Idle; by_cases; split; settle || exact I.
Qed.

(** On a recorder that is recording, the stop operation stops it once. *)
Lemma stop_finalizes (s : State) (st : MediaStream) :
  mediaRecorderRef s = Some (MediaRecorder.mk MediaRecorder.recording st) ->
  let s' := exec stopListeningAndRecording s in
  mediaRecorderRef s' = Some (MediaRecorder.mk MediaRecorder.inactive st) /\
  stop_queued s' = S (stop_queued s).
Proof.
  intros H; unfold_handlers; cbn.
  destruct (recognition s); cbn; rewrite H; cbn; split; reflexivity.
Qed.

(** With nothing recording, the stop operation queues no [stop] event and
    leaves the recorder as it is. *)
Lemma stop_when_Idle (s : State) :
  Idle s ->
  let s' := exec stopListeningAndRecording s in
  mediaRecorderRef s' = mediaRecorderRef s /\
  stop_queued s' = stop_queued s /\
  calls s' =
    calls s ++ match recognition s with
               | Some _ => [recognition_stop]
               | None => []
               end.
Proof.
  intros [_ H]; revert H; by_cases; intros;
    rewrite ?app_nil_r; repeat split; settle.
Qed.

(** C9: the stop operation in a state that is idle, or that a stop has just
    left, makes no recording and raises no error: the list of recordings,
    the clips waiting for their duration, the queue of the recorder's
    [stop] events, the recorder and the error message are as before, and
    the only call made is [recognition.stop()].  An [end] event of the
    engine that arrives in such a state does exactly the same. *)
Theorem stop_is_idempotent (s : State) :
  Idle s \/ (exists s0, s = exec stopListeningAndRecording s0) ->
  let s' := exec stopListeningAndRecording s in
  recordings s' = recordings s /\
  metadata_pending s' = metadata_pending s /\
  stop_queued s' = stop_queued s /\
  mediaRecorderRef s' = mediaRecorderRef s /\
  error s' = error s /\
  isListening s' = false /\
  calls s' =
    calls s ++ match recognition s with
               | Some _ => [recognition_stop]
               | None => []
               end /\
  forall restart, exec (handleEnd restart) s = s'.
Proof.
  intros H.
  assert (HI : Idle s) by (destruct H as [H|[s0 ->]]; [exact H|apply stop_Idle]).
  clear H; cbv zeta.
  destruct (stop_stops s) as (Hl & _ & He & Hr & Hm & _).
  destruct (stop_when_Idle HI) as (Hrec & Hq & Hc).
  repeat split; try assumption.
  intros restart; destruct HI as [Hidle _].
  unfold exec, handleEnd, bind, gets; cbn.
  destruct (intentionalStop s); cbn; rewrite ?Hidle; reflexivity.
Qed.

Lemma stop_is_idempotent_witness :
  let s := exec stopListeningAndRecording listening_turn_taking in
  let s' := exec stopListeningAndRecording s in
  stop_queued s = 1 /\ stop_queued s' = 1 /\
  recordings s' = [] /\ error s' = None.
Proof.
  cbv zeta.
  destruct (@stop_is_idempotent
              (exec stopListeningAndRecording listening_turn_taking))
    as (Hr & _ & Hq & _ & He & _).
  - right; exists listening_turn_taking; reflexivity.
  - rewrite Hr, Hq, He; repeat split; reflexivity.
Defined.

(** ** Recognition errors *)

(** ** The end of a recognition session *)

(** A start that succeeds sets the language of the engine to the
    [currentLang] of its closure, starts the engine with it and clears the
    intentional-stop flag, whatever the flag was. *)
Lemma start_succeeds (s : State) (l : Language) :
  let s' := exec (startListeningAndRecording_resume l all_succeed) s in
  let st := length (acquired (calls s)) in
  Listening s' st /\
  streamRef s' = Some st /\
  intentionalStop s' = false /\
  error s' = None /\
  recognition s' = Some (SpeechRecognition.mk (Some l)) /\
  calls s' =
    calls s ++ [getUserMedia_call st; recorder_start st;
                recognition_start (Some l)].
Proof.
  unfold Listening; by_cases; rewrite <- ?app_assoc; repeat split; reflexivity.
Qed.

(** C6, as the claim has it, fails when the restart throws: in a session
    that is listening in continuous mode with no stop requested, the [end]
    event then stops the session and the recorder instead of restarting. *)
Lemma session_end_restart_throws :
  let s := listening_continuous in
  let s' := exec (handleEnd (Some (lit "InvalidStateError"))) s in
  (isListening s = true /\ intentionalStop s = false /\ mode s = continuous) /\
  isListening s' = false /\
  mediaRecorderRef s' = Some (MediaRecorder.mk MediaRecorder.inactive 0) /\
  stop_queued s' = 1 /\
  calls s' = calls s ++ [recognition_stop; recorder_stop 0].
Proof.
  vm_compute; repeat split; reflexivity.
Qed.

(** ** Translations that fail *)

(** C7, as the code has it: a translation that fails writes the
    placeholder "Translation failed." into the entries that carry the id of
    the request, sets the error message of the whole application to
    "Failed to translate text." and clears [isTranslating]; nothing else
    changes, so the session keeps listening, the recorder keeps recording
    and the language is not switched. *)
Theorem translation_failure_effect (s : State) (req : Request)
  (err : jsstring) :
  let s' := exec (handleTranslation_resume req (rejected err)) s in
  s' = set_isTranslating false
         (set_log (fill (req_id req) (lit "Translation failed.") (log s))
            (set_error (Some (lit "Failed to translate text.")) s)) /\
  log s' = fill (req_id req) (lit "Translation failed.") (log s) /\
  error s' = Some (lit "Failed to translate text.") /\
  isListening s' = isListening s /\
  mediaRecorderRef s' = mediaRecorderRef s /\
  stop_queued s' = stop_queued s /\
  calls s' = calls s /\
  currentLang s' = currentLang s.
Proof. cbv zeta; repeat split. Qed.

(** C7, as the claim has it, fails: the failure of a translation does set
    the global error message, here in a session that had none. *)
Lemma translation_failure_sets_error :
  let s := step listening_turn_taking (onFinal (lit "A") 1000) in
  let s' := step s (generateContent_settled 0 (rejected (lit "503"))) in
  error s = None /\
  error s' = Some (lit "Failed to translate text.") /\
  isListening s' = true /\
  map LogEntry.translated (log s') = [Some (lit "Translation failed.")].
Proof.
  vm_compute; repeat split; reflexivity.
Qed.

(** ** Identifiers of log entries *)

Lemma fill_ids (id : Z) (v : jsstring) (l : list LogEntry.t) :
  map LogEntry.id (fill id v l) = map LogEntry.id l.
Proof.
  unfold fill; rewrite map_map; apply map_ext.
  intros entry; destruct (Z.eqb (LogEntry.id entry) id); reflexivity.
Qed.

Lemma fill_originals (id : Z) (v : jsstring) (l : list LogEntry.t) :
  map LogEntry.original (fill id v l) = map LogEntry.original l.
Proof.
  unfold fill; rewrite map_map; apply map_ext.
  intros entry; destruct (Z.eqb (LogEntry.id entry) id); reflexivity.
Qed.

Lemma fill_length (id : Z) (v : jsstring) (l : list LogEntry.t) :
  length (fill id v l) = length l.
Proof. apply length_map. Qed.

(** A turn of the loop keeps the ids in the log and adds at most one, the
    clock reading of the event that opens an entry. *)
Lemma ids_step (s : State) (e : Event) :
  map LogEntry.id (log (step s e)) =
  map LogEntry.id (log s) ++
  match opens s e with Some (_, now) => [now] | None => [] end.
Proof.
  rewrite log_step.
  destruct (opens s e) as [[text now]|].
  - now rewrite map_app.
  - destruct (settles s e) as [[req [v|err]]|];
      rewrite ?fill_ids, app_nil_r; reflexivity.
Qed.

Lemma ids_run (s : State) (tr : list Event) :
  map LogEntry.id (log (run s tr)) = map LogEntry.id (log s) ++ stamps s tr.
Proof.
  revert s; induction tr as [|e tr IH]; intros s; cbn.
  - now rewrite app_nil_r.
  - unfold run in IH; rewrite IH, ids_step.
    destruct (opens s e) as [[text now]|]; rewrite <- app_assoc; reflexivity.
Qed.

Lemma StronglySorted_lt_NoDup (l : list Z) :
  StronglySorted Z.lt l -> NoDup l.
Proof.
  induction 1 as [|x l Hs IH Hx]; constructor; [|exact IH].
  intros Hin; rewrite Forall_forall in Hx.
  specialize (Hx _ Hin); lia.
Qed.

(** C1, as the code has it: the id of an entry is the clock reading
    [Date.now()] taken when the entry is opened, and no later event changes
    or removes it.  So if these readings, listed after the ids already in
    the log, increase strictly, the ids in the log increase strictly in the
    order of creation and no two entries share one. *)
Theorem ids_follow_the_clock (s : State) (tr : list Event) :
  StronglySorted Z.lt (map LogEntry.id (log s) ++ stamps s tr) ->
  map LogEntry.id (log (run s tr)) = map LogEntry.id (log s) ++ stamps s tr /\
  StronglySorted Z.lt (map LogEntry.id (log (run s tr))) /\
  NoDup (map LogEntry.id (log (run s tr))).
Proof.
  intros H; rewrite ids_run; repeat split; auto using StronglySorted_lt_NoDup.
Qed.

Lemma ids_follow_the_clock_witness :
  let tr := [onFinal (lit "A") 1000; onFinal (lit "B") 1001] in
  map LogEntry.id (log (run listening_turn_taking tr)) = [1000; 1001]%Z /\
  NoDup (map LogEntry.id (log (run listening_turn_taking tr))).
Proof.
  cbv zeta.
  destruct (@ids_follow_the_clock listening_turn_taking
              [onFinal (lit "A") 1000; onFinal (lit "B") 1001])
    as (H1 & _ & H3).
  - vm_compute; repeat constructor.
  - split; [rewrite H1; reflexivity | exact H3].
Defined.

(** C1, as the claim has it, fails: two final transcripts handled at the
    same clock reading open two entries with the same id. *)
Lemma ids_collide_at_one_clock_reading :
  let tr := [onFinal (lit "A") 1000; onFinal (lit "B") 1000] in
  map LogEntry.original (log (run listening_turn_taking tr)) =
    [lit "A"; lit "B"] /\
  map LogEntry.id (log (run listening_turn_taking tr)) = [1000; 1000]%Z.
Proof.
  vm_compute; split; reflexivity.
Qed.

(** ** The transcript follows the final transcripts *)

Lemma opens_ready (s : State) (e : Event) :
  mounted s = true -> ai s = true -> recognition s <> None ->
  opens s e =
  match finalText e with
  | Some (text, now) => if truthy text then Some (text, now) else None
  | None => None
  end.
Proof.
  intros Hm Ha Hr; unfold opens; rewrite Hm, Ha.
  destruct (recognition s); [reflexivity | contradiction].
Qed.

Lemma originals_step (s : State) (e : Event) :
  map LogEntry.original (log (step s e)) =
  map LogEntry.original (log s) ++
  match opens s e with Some (text, _) => [text] | None => [] end.
Proof.
  rewrite log_step.
  destruct (opens s e) as [[text now]|].
  - now rewrite map_app.
  - destruct (settles s e) as [[req [v|err]]|];
      rewrite ?fill_originals, app_nil_r; reflexivity.
Qed.

(** A [result] event with one final result hands its trimmed transcript
    to [handleTranslation], unless the transcript is empty. *)
Lemma finalText_onFinal (text : jsstring) (now : Z) :
  finalText (onFinal text now) =
  if truthy text then Some (trim text, now) else None.
Proof. reflexivity. Qed.

(** Without a translation client no event opens an entry or sends a
    request. *)
Lemma without_client_no_entry (s : State) (tr : list Event) :
  ai s = false ->
  map LogEntry.original (log (run s tr)) = map LogEntry.original (log s) /\
  requests (calls (run s tr)) = requests (calls s).
Proof.
  revert s; induction tr as [|e tr IH]; intros s Ha; cbn; [auto|].
  assert (Ha' : ai (step s e) = false) by (rewrite ai_step; exact Ha).
  destruct (IH (step s e) Ha') as (I1 & I2).
  unfold run in *; rewrite I1, I2, originals_step, requests_step.
  assert (Ho : opens s e = None).
  { unfold opens; rewrite Ha, andb_false_r.
    destruct (recognition s), (finalText e) as [[text now]|]; reflexivity. }
  rewrite Ho, app_nil_r; auto.
Qed.

(** C4, as the code has it: while the component is mounted with an engine
    and a translation client, along any trace of events the originals in
    the log are those it had followed by the final transcripts of the
    trace that are not blank, trimmed, one entry each and in the order of
    arrival, whatever the order in which translations settle; and exactly
    these texts are sent to the translation service, one request each. *)
Theorem transcript_follows_finals (s : State) (tr : list Event) :
  mounted s = true -> ai s = true -> recognition s <> None ->
  existsb is_unmount tr = false ->
  map LogEntry.original (log (run s tr)) =
    map LogEntry.original (log s) ++ spoken tr /\
  length (log (run s tr)) = length (log s) + length (spoken tr) /\
  map req_text (requests (calls (run s tr))) =
    map req_text (requests (calls s)) ++ spoken tr.
Proof.
  revert s; induction tr as [|e tr IH]; intros s Hm Ha Hr Hu; cbn.
  - rewrite !app_nil_r, Nat.add_0_r; auto.
  - cbn in Hu; apply orb_false_elim in Hu; destruct Hu as [He Hu].
    assert (Hm' : mounted (step s e) = true)
      by (rewrite mounted_step, Hm, He; reflexivity).
    assert (Ha' : ai (step s e) = true) by (rewrite ai_step; exact Ha).
    assert (Hr' : recognition (step s e) <> None)
      by (apply recognition_step; exact Hr).
    destruct (IH (step s e) Hm' Ha' Hr' Hu) as (I1 & I2 & I3).
    unfold run in *; rewrite I1, I2, I3.
    rewrite <- (length_map LogEntry.original (log (step s e))).
    rewrite <- (length_map LogEntry.original (log s)).
    rewrite originals_step, requests_step, opens_ready by assumption.
    destruct (finalText e) as [[text now]|];
      [destruct (truthy text)|];
      rewrite ?map_app, ?length_app, <- ?app_assoc, ?app_nil_r; cbn;
      repeat split; auto; lia.
Qed.

Lemma transcript_follows_finals_witness :
  let tr := [onFinal (lit " A ") 5; onFinal (lit "B") 7;
             generateContent_settled 1 (fulfilled (lit "b"));
             generateContent_settled 0 (fulfilled (lit "a"))] in
  map LogEntry.original (log (run listening_continuous tr)) =
    [lit "A"; lit "B"].
Proof.
  cbv zeta.
  destruct (@transcript_follows_finals listening_continuous
              [onFinal (lit " A ") 5; onFinal (lit "B") 7;
               generateContent_settled 1 (fulfilled (lit "b"));
               generateContent_settled 0 (fulfilled (lit "a"))])
    as (H & _).
  - reflexivity.
  - reflexivity.
  - discriminate.
  - reflexivity.
  - rewrite H; reflexivity.
Defined.

(** C4, as the claim has it, fails: a final transcript that is empty or
    blank opens no entry and sends no request, even while listening with
    the translation client in place. *)
Lemma blank_final_opens_no_entry :
  let s := listening_turn_taking in
  let s' := run s [onFinal (lit "") 1; onFinal (lit "  ") 2] in
  (isListening s = true /\ ai s = true) /\
  log s' = log s /\ requests (calls s') = requests (calls s).
Proof.
  vm_compute; repeat split; reflexivity.
Qed.

(** ** Turn taking *)

Lemma toggleLang_involutive (l : Language) : toggleLang (toggleLang l) = l.
Proof. destruct l; reflexivity. Qed.

(** In turn-taking mode every request that is sent or in flight was sent
    in turn-taking mode, as long as the mode switch is left alone. *)
Lemma turn_taking_step (s : State) (e : Event) :
  is_manual e = false ->
  mode s = turn_taking ->
  all_turn_taking (generateContent_pending s) ->
  mode (step s e) = turn_taking /\
  all_turn_taking (generateContent_pending (step s e)).
Proof.
  intros He Hm Hp; split.
  - rewrite mode_step; destruct e; try assumption; discriminate.
  - rewrite generateContent_pending_step.
    destruct (opens s e) as [[text now]|].
    + apply Forall_app; split; [exact Hp|].
      constructor; [exact Hm | constructor].
    + destruct e; try exact Hp.
      destruct (pick k (generateContent_pending s)) as [[req rest]|] eqn:E;
        [|exact Hp].
      destruct (mounted s); [|exact Hp].
      apply (@pick_Forall _ _ _ _ _ _ E Hp).
Qed.

Lemma currentLang_turn_taking_step (s : State) (e : Event) :
  is_manual e = false ->
  all_turn_taking (generateContent_pending s) ->
  currentLang (step s e) =
  match settles s e with
  | Some (_, fulfilled _) => toggleLang (currentLang s)
  | _ => currentLang s
  end.
Proof.
  intros He Hp; rewrite currentLang_step.
  destruct e; try reflexivity; try discriminate.
  unfold settles.
  destruct (pick k (generateContent_pending s)) as [[req rest]|] eqn:E;
    [|reflexivity].
  destruct (mounted s); [|reflexivity].
  destruct r as [v|err]; [|reflexivity].
  destruct (@pick_Forall _ _ _ _ _ _ E Hp) as [-> _]; reflexivity.
Qed.

(** C5, as the code has it: in turn-taking mode, with every translation in
    flight submitted in turn-taking mode, along any trace in which the user
    does not touch the language button or the mode switch, the current
    language is the one at the start if the number of translations that
    succeeded is even and the other one if it is odd; translations that
    fail, and all other events, leave it alone.  Whether a translation that
    succeeds toggles the language is decided by the mode in which its text
    was submitted, not by the mode when it succeeds. *)
Theorem turn_taking_parity (s : State) (tr : list Event) :
  mode s = turn_taking ->
  all_turn_taking (generateContent_pending s) ->
  existsb is_manual tr = false ->
  currentLang (run s tr) =
  if Nat.even (successes s tr)
  then currentLang s
  else toggleLang (currentLang s).
Proof.
  revert s; induction tr as [|e tr IH]; intros s Hm Hp Ht; cbn;
    [reflexivity|].
  cbn in Ht; apply orb_false_elim in Ht; destruct Ht as [He Ht].
  destruct (turn_taking_step s e He Hm Hp) as [Hm' Hp'].
  unfold run in IH; rewrite (IH _ Hm' Hp' Ht).
  rewrite (currentLang_turn_taking_step s e He Hp).
  destruct (settles s e) as [[req [v|err]]|]; try reflexivity.
  rewrite Nat.even_succ, <- Nat.negb_even.
  destruct (Nat.even (successes (step s e) tr)); cbn;
    rewrite ?toggleLang_involutive; reflexivity.
Qed.

Lemma turn_taking_parity_witness :
  let tr := [onFinal (lit "A") 1; onFinal (lit "B") 2; onFinal (lit "C") 3;
             generateContent_settled 2 (fulfilled (lit "c"));
             generateContent_settled 0 (rejected (lit "503"));
             generateContent_settled 0 (fulfilled (lit "b"))] in
  currentLang listening_turn_taking = ja_JP /\
  successes listening_turn_taking tr = 2 /\
  currentLang (run listening_turn_taking tr) = ja_JP /\
  currentLang (run listening_turn_taking (removelast tr)) = zh_TW.
Proof.
  cbv zeta.
  pose proof (@turn_taking_parity listening_turn_taking
                [onFinal (lit "A") 1; onFinal (lit "B") 2; onFinal (lit "C") 3;
                 generateContent_settled 2 (fulfilled (lit "c"));
                 generateContent_settled 0 (rejected (lit "503"));
                 generateContent_settled 0 (fulfilled (lit "b"))]
                eq_refl (Forall_nil _) eq_refl) as H.
  split; [reflexivity|].
  split; [reflexivity|].
  split; [rewrite H; reflexivity | reflexivity].
Defined.

(** ** The intentional-stop flag *)

Lemma intentionalStop_run (s : State) (tr : list Event) :
  intentionalStop s = false -> intentionalStop (run s tr) = false.
Proof.
  revert s; induction tr as [|e tr IH]; intros s H; cbn; [exact H|].
  apply IH, intentionalStop_step, H.
Qed.

(** C10: the intentional-stop flag is false in every state the component
    reaches between two events, so whenever nobody is listening and
    whenever a session starts.  It is false at mount; the stop operation
    leaves it false whatever it was; a start that succeeds sets it to false
    whatever it was, and then listens; and the toggle of a listening
    session is the stop operation run with the flag set, which resets it. *)
Theorem intentional_stop_never_stale :
  (forall API_KEY SpeechRecognition tr,
      intentionalStop (run (mount API_KEY SpeechRecognition) tr) = false) /\
  (forall s, intentionalStop (exec stopListeningAndRecording s) = false) /\
  (forall s l,
      let s' := exec (startListeningAndRecording_resume l all_succeed) s in
      intentionalStop s' = false /\ isListening s' = true) /\
  (forall s,
      exec handleListenToggle s =
      if isListening s
      then exec stopListeningAndRecording (set_intentionalStop true s)
      else exec startListeningAndRecording s) /\
  (forall s, intentionalStop (exec startListeningAndRecording s)
             = intentionalStop s).
Proof.
  split; [|split; [|split; [|split]]].
  - intros; apply intentionalStop_run; reflexivity.
  - intros s; apply stop_stops.
  - intros s l; cbv zeta.
    destruct (start_succeeds s l) as ([Hl _] & _ & Hi & _).
    split; assumption.
  - intros s; unfold exec, handleListenToggle, bind, gets, modify; cbn.
    destruct (isListening s); reflexivity.
  - intros s; by_cases; reflexivity.
Qed.

(** ** Translations that settle out of order *)

Lemma opens_onFinal (s : State) (text : jsstring) (now : Z) :
  mounted s = true -> ai s = true -> recognition s <> None ->
  truthy (trim text) = true ->
  opens s (onFinal text now) = Some (trim text, now).
Proof.
  intros Hm Ha Hr Ht; rewrite opens_ready by assumption; cbn.
  rewrite (trim_truthy _ Ht), Ht; reflexivity.
Qed.

Lemma Mode_eqb_refl (m : Mode) : Mode_eqb m m = true.
Proof. destruct m; reflexivity. Qed.

Lemma handlerLang_step (s : State) (e : Event) :
  match e with
  | recognition_result _ _ _ | generateContent_settled _ _ =>
      handlerLang (step s e) = handlerLang s /\
      isListening (step s e) = isListening s
  | _ => True
  end.
Proof.
  destruct e; try exact I; by_cases; split; try settle;
    rewrite eqb_reflx, Mode_eqb_refl in *; discriminate.
Qed.

(** What a final transcript that is not blank does. *)
Lemma step_onFinal (s : State) (text : jsstring) (now : Z) :
  mounted s = true -> ai s = true -> recognition s <> None ->
  truthy (trim text) = true ->
  let s' := step s (onFinal text now) in
  log s' = log s ++ [LogEntry.mk now (trim text) None (handlerLang s)] /\
  generateContent_pending s' =
    generateContent_pending s
      ++ [mkRequest now (mode s) (handlerLang s) (trim text)] /\
  (mounted s' = true /\ ai s' = true /\ recognition s' <> None) /\
  handlerLang s' = handlerLang s /\ mode s' = mode s.
Proof.
  intros Hm Ha Hr Ht; cbv zeta.
  rewrite log_step, generateContent_pending_step, opens_onFinal by assumption.
  rewrite mounted_step, ai_step, mode_step, Hm.
  repeat split; auto using recognition_step.
  apply (handlerLang_step s (onFinal text now)).
Qed.

(** What a translation that succeeds does to the log and to the pool. *)
Lemma step_fulfilled (s : State) (k : nat) (v : jsstring) (req : Request)
  (rest : list Request) :
  mounted s = true ->
  pick k (generateContent_pending s) = Some (req, rest) ->
  let s' := step s (generateContent_settled k (fulfilled v)) in
  log s' = fill (req_id req) v (log s) /\
  generateContent_pending s' = rest /\
  mounted s' = true.
Proof.
  intros Hm Hp; cbv zeta.
  rewrite log_step, generateContent_pending_step, mounted_step.
  unfold opens, settles; cbn; rewrite Hp, Hm.
  destruct (recognition s); repeat split.
Qed.

Lemma fill_app (id : Z) (v : jsstring) (l l' : list LogEntry.t) :
  fill id v (l ++ l') = fill id v l ++ fill id v l'.
Proof. apply map_app. Qed.

(** C2, as the code has it: two final transcripts A then B whose entries
    get different ids, that is, that are handled at different clock
    readings, and whose translations arrive in the opposite order, leave
    at the end of the log the entry of A with the translation of A and the
    entry of B with the translation of B; the same holds if the
    translations arrive in the order of the requests.  Each result is
    written into the entries that carry the id of its request. *)
Theorem out_of_order_translations (s : State) (A B a b : jsstring)
  (tA tB : Z) :
  mounted s = true -> ai s = true -> recognition s <> None ->
  truthy (trim A) = true -> truthy (trim B) = true ->
  tA <> tB ->
  let n := length (generateContent_pending s) in
  let entryA := LogEntry.mk tA (trim A) (Some a) (handlerLang s) in
  let entryB := LogEntry.mk tB (trim B) (Some b) (handlerLang s) in
  log (run s [onFinal A tA; onFinal B tB;
              generateContent_settled (S n) (fulfilled b);
              generateContent_settled n (fulfilled a)])
  = fill tA a (fill tB b (log s)) ++ [entryA; entryB] /\
  log (run s [onFinal A tA; onFinal B tB;
              generateContent_settled n (fulfilled a);
              generateContent_settled n (fulfilled b)])
  = fill tB b (fill tA a (log s)) ++ [entryA; entryB].
Proof.
  intros Hm Ha Hr HA HB Hne; cbv zeta; cbn [run fold_left].
  destruct (step_onFinal s A tA Hm Ha Hr HA)
    as (L1 & P1 & (Hm1 & Ha1 & Hr1) & Hh1 & Hmo1).
  set (s1 := step s (onFinal A tA)) in *.
  destruct (step_onFinal s1 B tB Hm1 Ha1 Hr1 HB)
    as (L2 & P2 & (Hm2 & _ & _) & _ & _).
  set (s2 := step s1 (onFinal B tB)) in *.
  rewrite P1, Hh1, Hmo1 in P2; rewrite L1, Hh1 in L2.
  set (rA := mkRequest tA (mode s) (handlerLang s) (trim A)) in *.
  set (rB := mkRequest tB (mode s) (handlerLang s) (trim B)) in *.
  assert (EA : Z.eqb tA tB = false) by (apply Z.eqb_neq; exact Hne).
  assert (EB : Z.eqb tB tA = false) by (apply Z.eqb_neq; congruence).
  split.
  - assert (PB : pick (S (length (generateContent_pending s)))
                   (generateContent_pending s2)
                 = Some (rB, generateContent_pending s ++ [rA])).
    { rewrite P2.
      replace (S (length (generateContent_pending s)))
        with (length (generateContent_pending s ++ [rA]))
        by (rewrite length_app; cbn; lia).
      rewrite pick_app, app_nil_r; reflexivity. }
    destruct (step_fulfilled s2 _ b Hm2 PB) as (L3 & P3 & Hm3).
    set (s3 := step s2 _) in *.
    assert (PA : pick (length (generateContent_pending s))
                   (generateContent_pending s3)
                 = Some (rA, generateContent_pending s ++ [])).
    { rewrite P3; apply pick_app. }
    destruct (step_fulfilled s3 _ a Hm3 PA) as (L4 & _ & _).
    rewrite L4, L3, L2; cbn [req_id rA rB].
    rewrite <- app_assoc, !fill_app; cbn.
    rewrite ?EA, ?EB, ?Z.eqb_refl; cbn.
    rewrite ?EA, ?EB, ?Z.eqb_refl; reflexivity.
  - assert (PA : pick (length (generateContent_pending s))
                   (generateContent_pending s2)
                 = Some (rA, generateContent_pending s ++ [rB])).
    { rewrite P2, <- app_assoc; apply pick_app. }
    destruct (step_fulfilled s2 _ a Hm2 PA) as (L3 & P3 & Hm3).
    set (s3 := step s2 _) in *.
    assert (PB : pick (length (generateContent_pending s))
                   (generateContent_pending s3)
                 = Some (rB, generateContent_pending s ++ [])).
    { rewrite P3; apply pick_app. }
    destruct (step_fulfilled s3 _ b Hm3 PB) as (L4 & _ & _).
    rewrite L4, L3, L2; cbn [req_id rA rB].
    rewrite <- app_assoc, !fill_app; cbn.
    rewrite ?EA, ?EB, ?Z.eqb_refl; cbn.
    rewrite ?EA, ?EB, ?Z.eqb_refl; reflexivity.
Qed.

Lemma out_of_order_translations_witness :
  map (fun e => (LogEntry.original e, LogEntry.translated e))
    (log (run listening_turn_taking
            [onFinal (lit "A") 1000; onFinal (lit "B") 1001;
             generateContent_settled 1 (fulfilled (lit "b"));
             generateContent_settled 0 (fulfilled (lit "a"))]))
  = [(lit "A", Some (lit "a")); (lit "B", Some (lit "b"))].
Proof.
  pose proof (@out_of_order_translations listening_turn_taking
                (lit "A") (lit "B") (lit "a") (lit "b") 1000%Z 1001%Z
                eq_refl eq_refl) as H.
  destruct H as [H _].
  - discriminate.
  - reflexivity.
  - reflexivity.
  - discriminate.
  - cbn [length generateContent_pending listening_turn_taking] in H.
    change (length (generateContent_pending listening_turn_taking)) with 0 in H.
    rewrite H; reflexivity.
Defined.

(** C2, as the claim has it, fails: when A and B are handled at the same
    clock reading their entries share an id, each result is written into
    both, and the entry of B ends up with the translation of A. *)
Lemma same_id_translations_overwrite :
  map (fun e => (LogEntry.original e, LogEntry.translated e))
    (log (run listening_turn_taking
            [onFinal (lit "A") 1000; onFinal (lit "B") 1000;
             generateContent_settled 1 (fulfilled (lit "b"));
             generateContent_settled 0 (fulfilled (lit "a"))]))
  = [(lit "A", Some (lit "a")); (lit "B", Some (lit "a"))].
Proof.
  vm_compute; reflexivity.
Qed.

(** ** The microphone *)

Lemma acquired_app (cs cs' : list Call) :
  acquired (cs ++ cs') = acquired cs ++ acquired cs'.
Proof.
  induction cs as [|c cs IH]; cbn; [reflexivity|].
  destruct c; cbn; now rewrite ?IH.
Qed.

Lemma released_app (cs cs' : list Call) :
  released (cs ++ cs') = released cs ++ released cs'.
Proof.
  induction cs as [|c cs IH]; cbn; [reflexivity|].
  destruct c; cbn; now rewrite ?IH.
Qed.

(** The recorder's [stop] event and the cleanup at unmount release the
    stream that [streamRef] holds. *)
Lemma onstop_releases (s : State) (st : MediaStream) :
  streamRef s = Some st ->
  calls (exec onstop s) = calls s ++ [tracks_stop st] /\
  streamRef (exec onstop s) = None.
Proof.
  intros H; unfold_handlers; cbn; rewrite H; split; reflexivity.
Qed.

Lemma cleanup_releases (s : State) (st : MediaStream) :
  ai s = true -> streamRef s = Some st ->
  calls (exec cleanup s) = calls s ++ [tracks_stop st].
Proof.
  intros Ha H; unfold_handlers; cbn; rewrite Ha; cbn; rewrite H; reflexivity.
Qed.

(** C3 fails on the code.  A start that fails after the microphone was
    acquired releases nothing: the [catch] only sets the error message, the
    new stream stays in [streamRef] with its tracks live, and nobody is
    listening.  In the trace below the recorder cannot be constructed at
    the first start; the second start acquires a second stream while the
    first is still live, and after the stop, the recorder's [stop] event
    and the unmount, two streams were acquired and only the second one was
    released. *)
Theorem failed_start_keeps_the_stream :
  (forall s l o,
      fails_after_acquisition o = true ->
      let s' := exec (startListeningAndRecording_resume l o) s in
      let st := length (acquired (calls s)) in
      acquired (calls s') = acquired (calls s) ++ [st] /\
      released (calls s') = released (calls s) /\
      streamRef s' = Some st /\
      isListening s' = isListening s) /\
  let failure := MediaRecorder_throws (lit "MediaRecorder is not defined") in
  let s1 := run (mount true true) [click_mic; getUserMedia_settled 0 failure] in
  let s2 := run s1 [click_mic; getUserMedia_settled 0 all_succeed] in
  let s3 := run s2 [click_mic; recorder_stopped; unmount] in
  (isListening s1 = false /\ live (calls s1) = [0]) /\
  (isListening s2 = true /\ live (calls s2) = [0; 1]) /\
  (isListening s3 = false /\
   acquired (calls s3) = [0; 1] /\ released (calls s3) = [1] /\
   live (calls s3) = [0]).
Proof.
  split.
  - intros s l o Ho; destruct o; try discriminate; by_cases;
      rewrite ?acquired_app, ?released_app; cbn; rewrite ?app_nil_r;
      repeat split; settle.
  - vm_compute; repeat split; reflexivity.
Qed.

(** ** The loop of [handleResult] *)

Lemma collect_acc (results : list SpeechRecognitionResult)
  (finalTranscript interim : jsstring) :
  collect results finalTranscript interim =
  (finalTranscript ++ concat (map transcript (filter isFinal results)),
   interim
   ++ concat (map transcript (filter (fun r => negb (isFinal r)) results))).
Proof.
  revert finalTranscript interim.
  induction results as [|r results IH]; intros f i; cbn.
  - now rewrite !app_nil_r.
  - destruct (isFinal r); cbn; rewrite IH, <- app_assoc; reflexivity.
Qed.

(** X1: the loop of [handleResult] yields, as final transcript, the
    transcripts of the final results from [resultIndex] on, concatenated
    in order, and as interim transcript those of the results that are not
    final; results before [resultIndex] are ignored. *)
Theorem handleResult_loop (resultIndex : nat)
  (results : list SpeechRecognitionResult) :
  collect (skipn resultIndex results) [] [] =
  (concat (map transcript (filter isFinal (skipn resultIndex results))),
   concat (map transcript
             (filter (fun r => negb (isFinal r)) (skipn resultIndex results)))).
Proof. apply collect_acc. Qed.

(** X2: a [result] event shows the interim transcript it carries, unless
    it opens a log entry, which clears the interim transcript. *)
Theorem interim_after_result (s : State) (resultIndex : nat)
  (results : list SpeechRecognitionResult) (now : Z) :
  mounted s = true -> recognition s <> None ->
  let e := recognition_result resultIndex results now in
  interimTranscript (step s e) =
  match opens s e with
  | Some _ => []
  | None => snd (collect (skipn resultIndex results) [] [])
  end.
Proof.
  intros Hm Hr; unfold opens, finalText; by_cases; settle.
Qed.

Lemma interim_after_result_witness :
  let interim := [mkResult true (lit "done "); mkResult false (lit "and th")] in
  interimTranscript
    (step listening_turn_taking (recognition_result 1 interim 5))
  = lit "and th" /\
  interimTranscript
    (step listening_turn_taking (recognition_result 0 interim 5))
  = [].
Proof.
  cbv zeta; split.
  - rewrite interim_after_result; [reflexivity | reflexivity | discriminate].
  - rewrite interim_after_result; [reflexivity | reflexivity | discriminate].
Defined.

(** ** Entries are trimmed *)

Lemma trimStart_head (s : jsstring) :
  match trimStart s with
  | c :: _ => isWhiteSpace c = false
  | [] => True
  end.
Proof.
  induction s as [|c s IH]; cbn; [exact I|].
  destruct (isWhiteSpace c) eqn:E; [exact IH | exact E].
Qed.

Lemma trimStart_suffix (s : jsstring) :
  exists dropped, s = dropped ++ trimStart s.
Proof.
  induction s as [|c s [d IH]]; cbn.
  - exists []; reflexivity.
  - destruct (isWhiteSpace c).
    + exists (c :: d); cbn; now rewrite <- IH.
    + exists []; reflexivity.
Qed.

Lemma last_rev_cons (c : N) (u : jsstring) (d : N) :
  last (rev (c :: u)) d = c.
Proof. cbn; apply last_last. Qed.

Lemma trim_trimmed (s : jsstring) :
  truthy (trim s) = true -> trimmed (trim s).
Proof.
  unfold trim at 1 2, trimEnd.
  pose proof (trimStart_head s) as Hh.
  set (t := trimStart s) in *.
  pose proof (trimStart_head (rev t)) as Hu.
  destruct (trimStart_suffix (rev t)) as [d Hd].
  set (u := trimStart (rev t)) in *.
  assert (Ht : t = rev u ++ rev d).
  { rewrite <- (rev_involutive t), Hd, rev_app_distr; reflexivity. }
  intros Hne; unfold trimmed.
  destruct (rev u) as [|c w] eqn:Eru; [discriminate|].
  split.
  - rewrite Ht in Hh; exact Hh.
  - destruct u as [|x u']; [discriminate|].
    rewrite <- Eru, last_rev_cons; exact Hu.
Qed.

Lemma opens_trimmed (s : State) (e : Event) (text : jsstring) (now : Z) :
  opens s e = Some (text, now) -> trimmed text.
Proof.
  unfold opens, finalText.
  destruct (recognition s); [|discriminate].
  destruct e; try discriminate.
  destruct (truthy (fst (collect (skipn resultIndex results) [] [])));
    [|discriminate].
  destruct (mounted s && ai s); cbn; [|discriminate].
  destruct (truthy (trim _)) eqn:E; [|discriminate].
  intros [= <- _]; apply trim_trimmed, E.
Qed.

Lemma originals_trimmed_run (s : State) (tr : list Event) :
  Forall trimmed (map LogEntry.original (log s)) ->
  Forall trimmed (map LogEntry.original (log (run s tr))).
Proof.
  revert s; induction tr as [|e tr IH]; intros s H; cbn; [exact H|].
  apply IH; rewrite originals_step.
  apply Forall_app; split; [exact H|].
  destruct (opens s e) as [[text now]|] eqn:E; constructor;
    [eapply opens_trimmed; exact E | constructor].
Qed.

(** X3: whatever happens after mount, the original text of every log
    entry is trimmed: it is not empty and neither begins nor ends with
    white space. *)
Theorem originals_are_trimmed (API_KEY SpeechRecognition : bool)
  (tr : list Event) :
  Forall trimmed
    (map LogEntry.original (log (run (mount API_KEY SpeechRecognition) tr))).
Proof. apply originals_trimmed_run; constructor. Qed.

(** ** The log only grows *)

Lemma fill_nth (id : Z) (v : jsstring) (l : list LogEntry.t) (i : nat)
  (entry : LogEntry.t) :
  nth_error l i = Some entry ->
  exists entry',
    nth_error (fill id v l) i = Some entry' /\
    entry_key entry' = entry_key entry /\
    (LogEntry.translated entry <> None -> LogEntry.translated entry' <> None).
Proof.
  intros H; unfold fill; rewrite nth_error_map, H; cbn.
  destruct (Z.eqb (LogEntry.id entry) id).
  - eexists; repeat split; discriminate.
  - exists entry; auto.
Qed.

Lemma log_grows_step (s : State) (e : Event) (i : nat) (entry : LogEntry.t) :
  nth_error (log s) i = Some entry ->
  exists entry',
    nth_error (log (step s e)) i = Some entry' /\
    entry_key entry' = entry_key entry /\
    (LogEntry.translated entry <> None -> LogEntry.translated entry' <> None).
Proof.
  intros H; rewrite log_step.
  destruct (opens s e) as [[text now]|].
  - exists entry; rewrite nth_error_app1; auto.
    apply nth_error_Some; congruence.
  - destruct (settles s e) as [[req [v|err]]|]; auto using fill_nth.
    exists entry; auto.
Qed.

(** X4: the log is append-only.  Along any trace, an entry stays at its
    position with its id, original text and language, and once it holds a
    translation or the failure placeholder it never goes back to
    pending. *)
Theorem log_is_append_only (s : State) (tr : list Event) (i : nat)
  (entry : LogEntry.t) :
  nth_error (log s) i = Some entry ->
  exists entry',
    nth_error (log (run s tr)) i = Some entry' /\
    entry_key entry' = entry_key entry /\
    (LogEntry.translated entry <> None -> LogEntry.translated entry' <> None).
Proof.
  revert s entry; induction tr as [|e tr IH]; intros s entry H; cbn.
  - exists entry; auto.
  - destruct (log_grows_step s e i H) as (e1 & H1 & K1 & T1).
    destruct (IH _ _ H1) as (e2 & H2 & K2 & T2).
    exists e2; repeat split; [exact H2 | congruence | auto].
Qed.

Lemma log_is_append_only_witness :
  let s := step listening_turn_taking (onFinal (lit "A") 1000) in
  let tr := [onFinal (lit "B") 1000;
             generateContent_settled 1 (rejected (lit "503"));
             unmount] in
  exists entry',
    nth_error (log (run s tr)) 0 = Some entry' /\
    LogEntry.original entry' = lit "A".
Proof.
  cbv zeta.
  destruct (@log_is_append_only
              (step listening_turn_taking (onFinal (lit "A") 1000))
              [onFinal (lit "B") 1000;
               generateContent_settled 1 (rejected (lit "503")); unmount]
              0 (LogEntry.mk 1000 (lit "A") None ja_JP) eq_refl)
    as (entry' & H & K & _).
  exists entry'; split; [exact H|].
  injection K as _ Ho _; exact Ho.
Defined.

(** ** Entries and requests *)

Lemma fill_keys (id : Z) (v : jsstring) (l : list LogEntry.t) :
  map entry_key (fill id v l) = map entry_key l.
Proof.
  unfold fill; rewrite map_map; apply map_ext.
  intros entry; destruct (Z.eqb (LogEntry.id entry) id); reflexivity.
Qed.

Lemma keys_step (s : State) (e : Event) :
  map entry_key (log s) = map request_key (requests (calls s)) ->
  map entry_key (log (step s e))
  = map request_key (requests (calls (step s e))).
Proof.
  intros H; rewrite log_step, requests_step.
  destruct (opens s e) as [[text now]|].
  - rewrite !map_app, H; reflexivity.
  - destruct (settles s e) as [[req [v|err]]|]; rewrite ?fill_keys; exact H.
Qed.

Lemma pick_incl {A : Type} (k : nat) (l : list A) (x : A) (r : list A) :
  pick k l = Some (x, r) -> incl r l.
Proof.
  revert k x r; induction l as [|y l IH]; intros [|k] x r; cbn;
    try discriminate.
  - intros [= _ <-]; apply incl_tl, incl_refl.
  - destruct (pick k l) as [[z rest]|] eqn:E; [|discriminate].
    intros [= _ <-]; apply incl_cons; [left; reflexivity|].
    apply incl_tl; eauto.
Qed.

Lemma pending_step (s : State) (e : Event) :
  incl (generateContent_pending s) (requests (calls s)) ->
  incl (generateContent_pending (step s e)) (requests (calls (step s e))).
Proof.
  intros H; rewrite generateContent_pending_step, requests_step.
  destruct (opens s e) as [[text now]|].
  - apply incl_app; [apply incl_appl, H | apply incl_appr, incl_refl].
  - destruct e; try exact H.
    destruct (pick k (generateContent_pending s)) as [[req rest]|] eqn:E;
      [|exact H].
    destruct (mounted s); [|exact H].
    eapply incl_tran; [eapply pick_incl; exact E | exact H].
Qed.

(** X5: whatever happens after mount, the log and the requests sent to
    the translation service go together: the n-th entry and the n-th
    request have the same id, text and source language, so there are as
    many requests as entries; and every translation still in flight is one
    of these requests. *)
Theorem entries_match_requests (API_KEY SpeechRecognition : bool)
  (tr : list Event) :
  let s := run (mount API_KEY SpeechRecognition) tr in
  map entry_key (log s) = map request_key (requests (calls s)) /\
  length (log s) = length (requests (calls s)) /\
  incl (generateContent_pending s) (requests (calls s)).
Proof.
  cbv zeta.
  assert (G : forall tr s,
             map entry_key (log s) = map request_key (requests (calls s)) ->
             incl (generateContent_pending s) (requests (calls s)) ->
             map entry_key (log (run s tr))
             = map request_key (requests (calls (run s tr))) /\
             incl (generateContent_pending (run s tr))
                  (requests (calls (run s tr)))).
  { clear; induction tr as [|e tr IH]; intros s H1 H2; cbn; [auto|].
    apply IH; [apply keys_step, H1 | apply pending_step, H2]. }
  destruct (G tr (mount API_KEY SpeechRecognition)) as [H1 H2].
  - reflexivity.
  - intros x [].
  - repeat split; [exact H1 | | exact H2].
    rewrite <- (length_map entry_key), H1, length_map; reflexivity.
Qed.

(** ** Missing key, missing engine *)

Lemma ai_run (s : State) (tr : list Event) : ai (run s tr) = ai s.
Proof.
  revert s; induction tr as [|e tr IH]; intros s; cbn; [reflexivity|].
  unfold run in IH; rewrite IH; apply ai_step.
Qed.

Lemma unmount_without_key (s : State) :
  ai s = false -> calls (step s unmount) = calls s.
Proof.
  intros H; by_cases; settle.
Qed.

(** X6: when the API key is missing, nothing that happens after mount
    opens a log entry or sends a translation request, and unmounting stops
    no track of any stream: the mount effect returns before it installs
    its cleanup. *)
Theorem without_API_KEY (SpeechRecognition : bool) (tr : list Event) :
  let s := run (mount false SpeechRecognition) tr in
  log s = [] /\
  requests (calls s) = [] /\
  calls (step s unmount) = calls s.
Proof.
  cbv zeta.
  destruct (@without_client_no_entry (mount false SpeechRecognition) tr
              eq_refl) as [H1 H2].
  repeat split.
  - apply map_eq_nil in H1; exact H1.
  - exact H2.
  - apply unmount_without_key; rewrite ai_run; reflexivity.
Qed.

Lemma never_started_step (s : State) (e : Event) :
  never_started s -> never_started (step s e).
Proof.
  intros (H1 & H2 & H3 & H4 & H5 & H6); unfold never_started.
  destruct e; unfold_handlers; cbn;
    rewrite ?H1, ?H2, ?H5; cbn; rewrite ?H4; cbn;
    repeat (break_match; cbn);
    try match goal with
        | H : pick ?k [] = Some _ |- _ => destruct k; discriminate H
        end;
    rewrite ?H6; repeat split; settle.
Qed.

(** X7: in a browser without speech recognition, nothing that happens
    after mount starts a session: nobody ever listens, the microphone is
    never asked for, no call is made on any collaborator and the log stays
    empty. *)
Theorem without_SpeechRecognition (API_KEY : bool) (tr : list Event) :
  let s := run (mount API_KEY false) tr in
  isListening s = false /\ calls s = [] /\ streamRef s = None /\
  getUserMedia_pending s = [] /\ log s = [].
Proof.
  cbv zeta.
  assert (G : forall tr s, never_started s -> never_started (run s tr)).
  { clear; induction tr as [|e tr IH]; intros s H; cbn; [exact H|].
    apply IH, never_started_step, H. }
  destruct (G tr (mount API_KEY false)) as (_ & H2 & H3 & H4 & H5 & H6).
  - repeat split.
  - repeat split; assumption.
Qed.

(** ** Starting a session *)

(** X8: when [getUserMedia] rejects, the start is given up: the error
    message is "Could not start microphone: " followed by the reason, and
    nothing else changes, so nobody listens, no stream is held and no call
    is made. *)
Theorem microphone_refused (s : State) (k : nat) (l : Language)
  (rest : list Language) (msg : jsstring) :
  mounted s = true ->
  pick k (getUserMedia_pending s) = Some (l, rest) ->
  step s (getUserMedia_settled k (getUserMedia_rejects msg)) =
  set_error (Some (lit "Could not start microphone: " ++ msg))
    (set_getUserMedia_pending rest s).
Proof.
  intros Hm Hp; unfold step; rewrite Hm.
  unfold exec, handler, bind, gets; cbn; rewrite Hp; cbn.
  unfold commit; cbn; rewrite eqb_reflx, Mode_eqb_refl; reflexivity.
Qed.

Lemma microphone_refused_witness :
  let s := step (mount true true) click_mic in
  let s' := step s (getUserMedia_settled 0
                      (getUserMedia_rejects (lit "Permission denied"))) in
  error s' = Some (lit "Could not start microphone: Permission denied") /\
  isListening s' = false /\ calls s' = [] /\ streamRef s' = None.
Proof.
  cbv zeta.
  rewrite (@microphone_refused (step (mount true true) click_mic) 0 ja_JP []
             (lit "Permission denied") eq_refl eq_refl).
  repeat split.
Defined.

Lemma step_start (s : State) (k : nat) (l : Language) (rest : list Language)
  (o : StartOutcome) :
  mounted s = true ->
  pick k (getUserMedia_pending s) = Some (l, rest) ->
  step s (getUserMedia_settled k o) =
  commit s (exec (startListeningAndRecording_resume l o)
              (set_getUserMedia_pending rest s)).
Proof.
  intros Hm Hp; unfold step; rewrite Hm; f_equal.
  unfold exec, handler, bind at 1, gets; cbv beta iota; rewrite Hp.
  reflexivity.
Qed.

Lemma starts_app (cs cs' : list Call) :
  starts (cs ++ cs') = starts cs ++ starts cs'.
Proof.
  induction cs as [|c cs IH]; cbn; [reflexivity|].
  destruct c; cbn; now rewrite ?IH.
Qed.

Lemma start_keeps_language (s : State) (l : Language) (o : StartOutcome) :
  currentLang (exec (startListeningAndRecording_resume l o) s) = currentLang s
  /\ mode (exec (startListeningAndRecording_resume l o) s) = mode s.
Proof.
  destruct o; by_cases; split; reflexivity.
Qed.

Lemma commit_start (s s1 : State) :
  isListening s = false -> isListening s1 = true ->
  isListening (commit s s1) = true /\
  error (commit s s1) = error s1 /\
  recognition (commit s s1) = recognition s1 /\
  calls (commit s s1) = calls s1 /\
  handlerLang (commit s s1) = currentLang s1 /\
  currentLang (commit s s1) = currentLang s1.
Proof.
  intros H H1; unfold commit; rewrite H, H1; cbn.
  repeat split; exact H1.
Qed.

(** X9: a start that succeeds listens in the language that was current
    when the microphone button was clicked, which the suspended start
    holds, while the entries of the session are tagged with the language
    that is current when the microphone is granted; the two differ if the
    language button was used in between.  The start also clears the error
    message. *)
Theorem session_language (s : State) (k : nat) (l : Language)
  (rest : list Language) :
  mounted s = true -> isListening s = false ->
  pick k (getUserMedia_pending s) = Some (l, rest) ->
  let s' := step s (getUserMedia_settled k all_succeed) in
  isListening s' = true /\
  error s' = None /\
  recognition s' = Some (SpeechRecognition.mk (Some l)) /\
  starts (calls s') = starts (calls s) ++ [Some l] /\
  handlerLang s' = currentLang s /\
  currentLang s' = currentLang s.
Proof.
  intros Hm Hl Hp; cbv zeta; rewrite (@step_start s k l rest all_succeed Hm Hp).
  destruct (start_succeeds (set_getUserMedia_pending rest s) l)
    as ([Hl' _] & _ & _ & He & Hr & Hc).
  destruct (start_keeps_language (set_getUserMedia_pending rest s) l
              all_succeed) as [HL _].
  destruct (commit_start s _ Hl Hl') as (C1 & C2 & C3 & C4 & C5 & C6).
  rewrite C1, C2, C3, C4, C5, C6, He, Hr, Hc, HL, !starts_app.
  repeat match goal with |- _ /\ _ => split end; reflexivity.
Qed.

Lemma session_language_witness :
  let s := run (mount true true) [click_mic; click_lang] in
  let s' := step s (getUserMedia_settled 0 all_succeed) in
  recognition s' = Some (SpeechRecognition.mk (Some ja_JP)) /\
  handlerLang s' = zh_TW.
Proof.
  cbv zeta.
  destruct (@session_language (run (mount true true) [click_mic; click_lang])
              0 ja_JP [] eq_refl eq_refl eq_refl)
    as (_ & _ & Hr & _ & Hh & _).
  split; [exact Hr | exact Hh].
Defined.

(** ** Leaving a session *)

(** Replace the state by its cells, and the cells the hypotheses fix by
    their values. *)
Ltac cells s :=
  unfold Listening, Idle in *;
  destruct s; cbn in *;
  repeat match goal with
         | H : _ /\ _ |- _ => destruct H
         | H : ?r <> None |- _ => destruct r; [clear H | contradiction]
         end;
  subst.

Lemma stop_calls (s : State) (st : MediaStream) :
  recognition s <> None ->
  mediaRecorderRef s = Some (MediaRecorder.mk MediaRecorder.recording st) ->
  let s' := exec stopListeningAndRecording s in
  calls s' = calls s ++ [recognition_stop; recorder_stop st] /\
  streamRef s' = streamRef s /\
  stop_queued s' = S (stop_queued s) /\
  mounted s' = mounted s /\
  isListening s' = false.
Proof.
  intros Hr Hm; cells s; unfold_handlers; cbn.
  rewrite <- app_assoc; repeat split.
Qed.


(** What the microphone button and a fatal error do to a listening
    session. *)
Lemma step_stop_click (s : State) :
  mounted s = true -> isTranslating s = false -> isListening s = true ->
  step s click_mic =
  commit s (exec stopListeningAndRecording (set_intentionalStop true s)).
Proof.
  intros Hm Ht Hl; unfold step; rewrite Hm; f_equal.
  unfold exec, handler, handleListenToggle, bind, gets, modify; cbv beta iota.
  rewrite Ht; cbv beta iota; rewrite Hl; reflexivity.
Qed.







(** ** A whole session *)

Lemma run_app (s : State) (tr tr' : list Event) :
  run s (tr ++ tr') = run (run s tr) tr'.
Proof. apply fold_left_app. Qed.

Lemma step_start_click (s : State) :
  mounted s = true -> recognition s <> None ->
  isTranslating s = false -> isListening s = false ->
  step s click_mic =
  set_getUserMedia_pending (getUserMedia_pending s ++ [currentLang s]) s.
Proof.
  intros Hm Hr Ht Hl; cells s.
  unfold_handlers; cbn.
  rewrite Mode_eqb_refl; reflexivity.
Qed.

(** The cells that the render after a handler leaves alone: all but
    [handlerLang]. *)
Lemma commit_cells (s s1 : State) :
  (mounted (commit s s1) = mounted s1 /\
   isListening (commit s s1) = isListening s1 /\
   isTranslating (commit s s1) = isTranslating s1 /\
   recognition (commit s s1) = recognition s1) /\
  (mediaRecorderRef (commit s s1) = mediaRecorderRef s1 /\
   streamRef (commit s s1) = streamRef s1 /\
   stop_queued (commit s s1) = stop_queued s1) /\
  calls (commit s s1) = calls s1 /\
  audioChunksRef (commit s s1) = audioChunksRef s1 /\
  recordings (commit s s1) = recordings s1 /\
  metadata_pending (commit s s1) = metadata_pending s1.
Proof.
  unfold commit; destruct (_ && _); repeat split.
Qed.

Lemma start_frame (s : State) (l : Language) (o : StartOutcome) :
  let s' := exec (startListeningAndRecording_resume l o) s in
  mounted s' = mounted s /\
  isTranslating s' = isTranslating s /\
  audioChunksRef s' = audioChunksRef s /\
  recordings s' = recordings s /\
  metadata_pending s' = metadata_pending s.
Proof.
  destruct o; by_cases; repeat split; reflexivity.
Qed.

(** The cells a session goes through, after a start that succeeds. *)
Lemma start_session (s : State) (k : nat) (l : Language)
  (rest : list Language) :
  mounted s = true -> isListening s = false ->
  pick k (getUserMedia_pending s) = Some (l, rest) ->
  let s' := step s (getUserMedia_settled k all_succeed) in
  let st := length (acquired (calls s)) in
  (mounted s' = true /\ isListening s' = true /\
   isTranslating s' = isTranslating s /\
   recognition s' <> None) /\
  (mediaRecorderRef s' =
     Some (MediaRecorder.mk MediaRecorder.recording st) /\
   streamRef s' = Some st) /\
  calls s' = calls s ++ [getUserMedia_call st; recorder_start st;
                         recognition_start (Some l)] /\
  audioChunksRef s' = audioChunksRef s /\
  recordings s' = recordings s /\
  metadata_pending s' = metadata_pending s.
Proof.
  intros Hm Hl Hp; cbv zeta.
  rewrite (@step_start s k l rest all_succeed Hm Hp).
  destruct (start_succeeds (set_getUserMedia_pending rest s) l)
    as ([Hl' Hrec] & Hs & _ & _ & Hr & Hc).
  destruct (start_frame (set_getUserMedia_pending rest s) l all_succeed)
    as (F1 & F2 & F3 & F4 & F5).
  destruct (commit_cells s
              (exec (startListeningAndRecording_resume l all_succeed)
                 (set_getUserMedia_pending rest s)))
    as ((C1 & C2 & C3 & C4) & (C5 & C6 & _) & C7 & C8 & C9 & C10).
  rewrite C1, C2, C3, C4, C5, C6, C7, C8, C9, C10.
  rewrite F1, F2, F3, F4, F5, Hl', Hrec, Hs, Hr, Hc.
  repeat match goal with
         | |- _ /\ _ => split
         | |- _ <> _ => discriminate
         end; solve [reflexivity | assumption].
Qed.

(** Chunks that arrive while there is a recorder: the empty ones are
    dropped, the others are kept in order. *)
Lemma chunks_arrive (s : State) (sizes : list N) :
  mounted s = true -> mediaRecorderRef s <> None ->
  run s (map recorder_dataavailable sizes) =
  set_audioChunksRef (audioChunksRef s ++ filter (N.ltb 0) sizes) s.
Proof.
  revert s; induction sizes as [|size sizes IH]; intros s Hm Hr.
  - cbn; rewrite app_nil_r; destruct s; reflexivity.
  - cbn [map run fold_left].
    assert (E : step s (recorder_dataavailable size) =
                if N.ltb 0 size
                then set_audioChunksRef (audioChunksRef s ++ [size]) s
                else s).
    { clear IH; cells s; unfold_handlers; cbn.
      destruct (N.ltb 0 size); cbn; rewrite eqb_reflx, Mode_eqb_refl;
        reflexivity. }
    rewrite E; cbn [filter].
    destruct (N.ltb 0 size).
    + unfold run in IH; rewrite IH by assumption; cbn.
      rewrite <- app_assoc; reflexivity.
    + apply IH; assumption.
Qed.

Lemma stop_frame (s : State) :
  audioChunksRef (exec stopListeningAndRecording s) = audioChunksRef s.
Proof. by_cases; reflexivity. Qed.

(** What the click that stops a session leaves for the recorder's [stop]
    event. *)
Lemma stop_click_session (s : State) (st : MediaStream) :
  mounted s = true -> recognition s <> None -> isTranslating s = false ->
  Listening s st ->
  let s' := step s click_mic in
  (mounted s' = true /\ isListening s' = false /\
   stop_queued s' = S (stop_queued s) /\ streamRef s' = streamRef s) /\
  calls s' = calls s ++ [recognition_stop; recorder_stop st] /\
  audioChunksRef s' = audioChunksRef s /\
  recordings s' = recordings s /\
  metadata_pending s' = metadata_pending s.
Proof.
  intros Hm Hr Ht [Hl Hrec]; cbv zeta.
  rewrite (@step_stop_click s Hm Ht Hl).
  destruct (@stop_calls (set_intentionalStop true s) st Hr Hrec)
    as (S1 & S2 & S3 & S4 & S5).
  destruct (stop_stops (set_intentionalStop true s))
    as (_ & _ & _ & S6 & S7 & _).
  pose proof (stop_frame (set_intentionalStop true s)) as S8.
  destruct (commit_cells s
              (exec stopListeningAndRecording (set_intentionalStop true s)))
    as ((C1 & C2 & _ & _) & (_ & C6 & C7) & C8 & C9 & C10 & C11).
  rewrite C1, C2, C6, C7, C8, C9, C10, C11, S1, S2, S3, S4, S5, S6, S7, S8.
  repeat match goal with |- _ /\ _ => split end;
    solve [reflexivity | assumption].
Qed.

Lemma step_recorder_stopped_keeps (s : State) (q : nat) :
  mounted s = true -> stop_queued s = S q ->
  let s' := step s recorder_stopped in
  mounted s' = true /\ recordings s' = recordings s.
Proof.
  intros Hm Hq; cells s; unfold_handlers; cbn.
  destruct streamRef0; cbn; rewrite eqb_reflx, Mode_eqb_refl; repeat split.
Qed.

(** ** Language and mode *)

(** X13: while a session is listening, no event changes the mode, and
    the only event that changes the current language is a translation that
    succeeds for a request sent in turn-taking mode, which switches it; the
    language button and the mode switch are disabled. *)
Theorem listening_freezes_mode (s : State) (e : Event) :
  isListening s = true ->
  mode (step s e) = mode s /\
  (currentLang (step s e) = currentLang s \/
   exists req v,
     settles s e = Some (req, fulfilled v) /\
     req_mode req = turn_taking /\
     currentLang (step s e) = toggleLang (currentLang s)).
Proof.
  intros Hl; rewrite mode_step, currentLang_step, Hl, andb_false_r; split.
  - destruct e; reflexivity.
  - destruct e; try (left; reflexivity).
    destruct (settles s (generateContent_settled k r)) as [[req [v|err]]|];
      try (left; reflexivity).
    destruct (req_mode req) eqn:E; cbn; [right | left; reflexivity].
    exists req, v; repeat split; exact E.
Qed.

Lemma listening_freezes_mode_witness :
  mode (step listening_turn_taking click_mode) = turn_taking /\
  currentLang (step listening_turn_taking click_lang) = ja_JP.
Proof.
  destruct (@listening_freezes_mode listening_turn_taking click_mode eq_refl)
    as [H _].
  split; [rewrite H; reflexivity | reflexivity].
Defined.

Lemma continuous_step (s : State) (e : Event) :
  is_manual e = false ->
  mode s = continuous ->
  all_continuous (generateContent_pending s) ->
  mode (step s e) = continuous /\
  all_continuous (generateContent_pending (step s e)) /\
  currentLang (step s e) = currentLang s.
Proof.
  intros He Hm Hp; repeat split.
  - rewrite mode_step; destruct e; try assumption; discriminate.
  - rewrite generateContent_pending_step.
    destruct (opens s e) as [[text now]|].
    + apply Forall_app; split; [exact Hp|].
      constructor; [exact Hm | constructor].
    + destruct e; try exact Hp.
      destruct (pick k (generateContent_pending s)) as [[req rest]|] eqn:E;
        [|exact Hp].
      destruct (mounted s); [|exact Hp].
      apply (@pick_Forall _ _ _ _ _ _ E Hp).
  - rewrite currentLang_step.
    destruct e; try reflexivity; try discriminate.
    unfold settles.
    destruct (pick k (generateContent_pending s)) as [[req rest]|] eqn:E;
      [|reflexivity].
    destruct (mounted s); [|reflexivity].
    destruct r as [v|err]; [|reflexivity].
    destruct (@pick_Forall _ _ _ _ _ _ E Hp) as [-> _]; reflexivity.
Qed.

(** X14: in continuous mode the current language is fixed: along any
    trace in which the user does not touch the language button or the mode
    switch, and with every translation in flight sent in continuous mode,
    the language stays what it was, whatever is translated. *)
Theorem continuous_keeps_language (s : State) (tr : list Event) :
  mode s = continuous ->
  all_continuous (generateContent_pending s) ->
  existsb is_manual tr = false ->
  currentLang (run s tr) = currentLang s.
Proof.
  revert s; induction tr as [|e tr IH]; intros s Hm Hp Ht; cbn;
    [reflexivity|].
  cbn in Ht; apply orb_false_elim in Ht; destruct Ht as [He Ht].
  destruct (continuous_step s e He Hm Hp) as (Hm' & Hp' & Hc).
  unfold run in IH; rewrite (IH _ Hm' Hp' Ht); exact Hc.
Qed.

Lemma continuous_keeps_language_witness :
  currentLang
    (run listening_continuous
       [onFinal (lit "A") 1; onFinal (lit "B") 2;
        generateContent_settled 1 (fulfilled (lit "b"));
        recognition_end None;
        generateContent_settled 0 (fulfilled (lit "a"))])
  = ja_JP.
Proof.
  rewrite continuous_keeps_language;
    [reflexivity | reflexivity | constructor | reflexivity].
Defined.

(** X15: a translation that succeeds writes its text into the entries
    that carry the id of the request, takes the request out of the pool
    and clears [isTranslating], even if other translations are still in
    flight; it switches the language if the request was sent in turn-taking
    mode, whatever the mode is now; and it changes nothing else, so an error
    message on display stays. *)
Theorem translation_success_effect (s : State) (k : nat) (req : Request)
  (rest : list Request) (v : jsstring) :
  mounted s = true ->
  pick k (generateContent_pending s) = Some (req, rest) ->
  step s (generateContent_settled k (fulfilled v)) =
  set_isTranslating false
    (set_currentLang
       (match req_mode req with
        | turn_taking => toggleLang (currentLang s)
        | continuous => currentLang s
        end)
       (set_log (fill (req_id req) v (log s))
          (set_generateContent_pending rest s))).
Proof.
  intros Hm Hp; unfold step; rewrite Hm.
  unfold exec, handler, bind at 1, gets; cbv beta iota; rewrite Hp.
  unfold_handlers; cbn.
  destruct (req_mode req); cbn; rewrite eqb_reflx, Mode_eqb_refl;
    reflexivity.
Qed.

Lemma translation_success_effect_witness :
  let s := run listening_turn_taking
             [onFinal (lit "A") 1; onFinal (lit "B") 2;
              generateContent_settled 0 (rejected (lit "503"))] in
  let s' := step s (generateContent_settled 0 (fulfilled (lit "b"))) in
  error s' = Some (lit "Failed to translate text.") /\
  currentLang s' = zh_TW /\
  map LogEntry.translated (log s') =
    [Some (lit "Translation failed."); Some (lit "b")].
Proof.
  cbv zeta.
  rewrite (@translation_success_effect
             (run listening_turn_taking
                [onFinal (lit "A") 1; onFinal (lit "B") 2;
                 generateContent_settled 0 (rejected (lit "503"))])
             0 (mkRequest 2 turn_taking ja_JP (lit "B")) [] (lit "b")
             eq_refl eq_refl).
  repeat split.
Defined.

(** ** The language tag of an entry *)

Lemma fill_langs (id : Z) (v : jsstring) (l : list LogEntry.t) :
  map LogEntry.lang (fill id v l) = map LogEntry.lang l.
Proof.
  unfold fill; rewrite map_map; apply map_ext.
  intros entry; destruct (Z.eqb (LogEntry.id entry) id); reflexivity.
Qed.

Lemma langs_step (s : State) (e : Event) :
  map LogEntry.lang (log (step s e)) =
  map LogEntry.lang (log s) ++
  match opens s e with Some _ => [handlerLang s] | None => [] end.
Proof.
  rewrite log_step.
  destruct (opens s e) as [[text now]|].
  - now rewrite map_app.
  - destruct (settles s e) as [[req [v|err]]|];
      rewrite ?fill_langs, app_nil_r; reflexivity.
Qed.

(** X16: the language tag of an entry is not the current language but
    the one the registered listeners closed over, which is refreshed only
    when [isListening] or [mode] changes.  Along any trace of results and
    settled translations every new entry gets the same tag, the one at the
    start of the trace, even when translations switch the current language
    in between. *)
Theorem entries_tagged_with_listener_language (s : State) (tr : list Event) :
  forallb is_traffic tr = true ->
  handlerLang (run s tr) = handlerLang s /\
  map LogEntry.lang (log (run s tr)) =
    map LogEntry.lang (log s)
    ++ repeat (handlerLang s) (length (stamps s tr)).
Proof.
  revert s; induction tr as [|e tr IH]; intros s Ht; cbn.
  - now rewrite app_nil_r.
  - cbn in Ht; apply andb_prop in Ht; destruct Ht as [He Ht].
    assert (Hh : handlerLang (step s e) = handlerLang s).
    { pose proof (handlerLang_step s e) as H.
      destruct e; try discriminate; apply H. }
    destruct (IH (step s e) Ht) as [I1 I2].
    unfold run in *; rewrite I1, I2, Hh, langs_step.
    destruct (opens s e) as [[text now]|]; cbn;
      rewrite <- app_assoc; auto.
Qed.

Lemma entries_tagged_with_listener_language_witness :
  let tr := [onFinal (lit "A") 1;
             generateContent_settled 0 (fulfilled (lit "a"));
             onFinal (lit "B") 2] in
  currentLang (run listening_turn_taking tr) = zh_TW /\
  map LogEntry.lang (log (run listening_turn_taking tr)) = [ja_JP; ja_JP].
Proof.
  cbv zeta.
  destruct (@entries_tagged_with_listener_language listening_turn_taking
              [onFinal (lit "A") 1;
               generateContent_settled 0 (fulfilled (lit "a"));
               onFinal (lit "B") 2] eq_refl) as [_ H].
  split; [reflexivity | rewrite H; reflexivity].
Defined.

(** ** Restarts *)

Lemma restart_step (s : State) (e : Event) (rec : SpeechRecognition.t) :
  is_start e = false ->
  recognition s = Some rec ->
  recognition (step s e) = Some rec /\
  (starts (calls (step s e)) = starts (calls s) \/
   starts (calls (step s e))
   = starts (calls s) ++ [SpeechRecognition.lang rec]).
Proof.
  intros He Hr; destruct e; try discriminate; unfold_handlers; cbn;
    rewrite ?Hr; cbn; repeat (break_match; cbn);
    rewrite ?starts_app; cbn; rewrite ?app_nil_r;
    split; solve [congruence | left; congruence | right; congruence].
Qed.

(** X17: the language of the engine is set only when a session starts.
    Along any trace without a start, the engine keeps its language, and
    every [recognition.start()] of the trace, that is every automatic
    restart, uses that language. *)
Theorem restarts_keep_language (s : State) (tr : list Event)
  (rec : SpeechRecognition.t) :
  recognition s = Some rec ->
  existsb is_start tr = false ->
  recognition (run s tr) = Some rec /\
  exists n,
    starts (calls (run s tr))
    = starts (calls s) ++ repeat (SpeechRecognition.lang rec) n.
Proof.
  revert s; induction tr as [|e tr IH]; intros s Hr Ht; cbn.
  - split; [exact Hr | exists 0; now rewrite app_nil_r].
  - cbn in Ht; apply orb_false_elim in Ht; destruct Ht as [He Ht].
    destruct (restart_step s e He Hr) as [Hr' Hs].
    destruct (IH (step s e) Hr' Ht) as [I1 [n I2]].
    split; [exact I1|].
    unfold run in *; rewrite I2.
    destruct Hs as [-> | ->].
    + exists n; reflexivity.
    + exists (S n); rewrite <- app_assoc; reflexivity.
Qed.

Lemma restarts_keep_language_witness :
  starts
    (calls (run listening_continuous
              [recognition_end None; onFinal (lit "A") 1;
               recognition_error (lit "no-speech"); recognition_end None]))
  = [Some ja_JP; Some ja_JP; Some ja_JP].
Proof.
  destruct (@restarts_keep_language listening_continuous
              [recognition_end None; onFinal (lit "A") 1;
               recognition_error (lit "no-speech"); recognition_end None]
              (SpeechRecognition.mk (Some ja_JP)) eq_refl eq_refl)
    as [_ [n H]].
  reflexivity.
Defined.

(** ** Deleting a recording *)

Lemma delete_after (id : Z) (s : State) :
  after (handleDeleteRecording id) s =
  set_recordings
    (filter (fun r => negb (Z.eqb (Recording.id r) id)) (recordings s)) s.
Proof. reflexivity. Qed.

Lemma filter_twice {A : Type} (f g : A -> bool) (l : list A) :
  filter f (filter g l) = filter g (filter f l).
Proof.
  induction l as [|x l IH]; cbn; [reflexivity|].
  destruct (f x) eqn:Ef, (g x) eqn:Eg; cbn; rewrite ?Ef, ?Eg, IH; reflexivity.
Qed.

Lemma filter_again {A : Type} (f : A -> bool) (l : list A) :
  filter f (filter f l) = filter f l.
Proof.
  induction l as [|x l IH]; cbn; [reflexivity|].
  destruct (f x) eqn:Ef; cbn; rewrite ?Ef, IH; reflexivity.
Qed.

(** X18: deleting a recording by id removes every recording with that
    id and keeps the others, in their order.  Deleting the same id again
    changes nothing, deletions of two ids can be done in either order, and
    the session, the log and the calls made are not touched. *)
Theorem delete_removes_by_id (s : State) (id : Z) :
  let s' := after (handleDeleteRecording id) s in
  (forall r, In r (recordings s') <->
             In r (recordings s) /\ Recording.id r <> id) /\
  recordings s' =
    filter (fun r => negb (Z.eqb (Recording.id r) id)) (recordings s) /\
  after (handleDeleteRecording id) s' = s' /\
  (forall id',
      after (handleDeleteRecording id') s'
      = after (handleDeleteRecording id)
          (after (handleDeleteRecording id') s)) /\
  (isListening s' = isListening s /\ log s' = log s /\ calls s' = calls s /\
   error s' = error s).
Proof.
  cbv zeta; rewrite !delete_after; cbn [recordings set_recordings].
  split; [|split; [|split; [|split]]].
  - intros r; rewrite filter_In, negb_true_iff, Z.eqb_neq; reflexivity.
  - reflexivity.
  - rewrite ?delete_after; cbn [recordings set_recordings].
    rewrite filter_again; destruct s; reflexivity.
  - intros id'; rewrite ?delete_after; cbn [recordings set_recordings].
    rewrite filter_twice; destruct s; reflexivity.
  - repeat split.
Qed.

Lemma find_first {A : Type} (f : A -> bool) (l : list A) (x : A) :
  find f l = Some x ->
  exists before rest,
    l = before ++ x :: rest /\ f x = true /\
    Forall (fun y => f y = false) before.
Proof.
  induction l as [|y l IH]; cbn; [discriminate|].
  destruct (f y) eqn:E.
  - intros [= <-]; exists [], l; repeat split; [exact E | constructor].
  - intros H; destruct (IH H) as (b & r & -> & Hx & Hb).
    exists (y :: b), r; repeat split; [exact Hx | constructor; assumption].
Qed.

(** X19: deleting a recording revokes one object URL at most, that of
    the first recording with the id, and none when no recording has the
    id; every recording with the id is removed all the same, so when
    several share the id the URLs of all but the first are never
    revoked. *)
Theorem delete_revokes_first (s : State) (id : Z) :
  match value (handleDeleteRecording id) s with
  | Some (Some r) =>
      exists before rest,
        recordings s = before ++ r :: rest /\
        Recording.id r = id /\
        Forall (fun r' => Recording.id r' <> id) before
  | Some None => Forall (fun r => Recording.id r <> id) (recordings s)
  | None => False
  end /\
  length (recordings s) =
    length (recordings (after (handleDeleteRecording id) s))
    + count_occ Z.eq_dec (map Recording.id (recordings s)) id.
Proof.
  split.
  - unfold value, handleDeleteRecording, bind, gets, setRecordings, modify,
      ret; cbn.
    destruct (find _ (recordings s)) as [r|] eqn:E.
    + destruct (find_first _ _ E) as (b & rest & Hl & Hr & Hb).
      exists b, rest; repeat split; [exact Hl | apply Z.eqb_eq, Hr |].
      eapply Forall_impl; [|exact Hb].
      intros r' H; apply Z.eqb_neq, H.
    + apply Forall_forall; intros r Hr.
      apply Z.eqb_neq; exact (find_none _ _ E r Hr).
  - rewrite delete_after; cbn [recordings set_recordings].
    induction (recordings s) as [|r l IH]; cbn; [reflexivity|].
    destruct (Z.eq_dec (Recording.id r) id) as [->|Hne].
    + rewrite Z.eqb_refl; cbn; lia.
    + apply Z.eqb_neq in Hne; rewrite Hne; cbn; lia.
Qed.

(** ** The name of a downloaded clip *)

(** X20: the file name offered for a download has no [':'] and no
    ['/']: each of them is replaced by ['-'], every other code unit of the
    recording's name stays where it is, and [".wav"] is appended. *)
Theorem download_name_is_safe (name : jsstring) :
  ~ In 58%N (download name) /\
  ~ In 47%N (download name) /\
  length (download name) = length name + 4 /\
  (forall i c,
      nth_error name i = Some c ->
      nth_error (download name) i
      = Some (if N.eqb c 58 || N.eqb c 47 then 45%N else c)) /\
  skipn (length name) (download name) = lit ".wav".
Proof.
  unfold download.
  set (f := fun c : N => if N.eqb c 58 || N.eqb c 47 then 45%N else c).
  assert (Hf : forall x c, In x (map f name ++ lit ".wav") ->
                           x = c -> c = 58%N \/ c = 47%N -> False).
  { intros x c Hin -> Hc; apply in_app_or in Hin; destruct Hin as [Hin|Hin].
    - apply in_map_iff in Hin; destruct Hin as (y & Hy & _); unfold f in Hy.
      destruct (N.eqb_spec y 58), (N.eqb_spec y 47); cbn in Hy;
        destruct Hc; subst; try discriminate; congruence.
    - vm_compute in Hin.
      destruct Hc; subst; intuition discriminate. }
  repeat split.
  - intros H; exact (Hf _ _ H eq_refl (or_introl eq_refl)).
  - intros H; exact (Hf _ _ H eq_refl (or_intror eq_refl)).
  - rewrite length_app, length_map; reflexivity.
  - intros i c H; rewrite nth_error_app1
      by (rewrite length_map; apply nth_error_Some; congruence).
    rewrite nth_error_map, H; reflexivity.
  - rewrite <- (length_map f name), skipn_app, Nat.sub_diag, skipn_all.
    reflexivity.
Qed.

(** ** The direction of a translation *)



(** ** From the stop to the clip *)

Lemma commit_error (s s1 : State) : error (commit s s1) = error s1.
Proof. unfold commit; destruct (_ && _); reflexivity. Qed.


(** The cells after the stop operation has run, in the handler of a click
    or of an error, on a session whose recorder in [mediaRecorderRef] is
    recording. *)
Lemma stopped_session (s s0 : State) (st : MediaStream) :
  mounted s0 = true -> recognition s0 <> None ->
  mediaRecorderRef s0 = Some (MediaRecorder.mk MediaRecorder.recording st) ->
  let s' := commit s (exec stopListeningAndRecording s0) in
  (mounted s' = true /\ isListening s' = false /\
   stop_queued s' = S (stop_queued s0) /\ streamRef s' = streamRef s0 /\
   mediaRecorderRef s' = Some (MediaRecorder.mk MediaRecorder.inactive st)) /\
  calls s' = calls s0 ++ [recognition_stop; recorder_stop st] /\
  audioChunksRef s' = audioChunksRef s0 /\
  recordings s' = recordings s0 /\
  metadata_pending s' = metadata_pending s0 /\
  error s' = error s0.
Proof.
  intros Hm Hr Hrec; cbv zeta.
  destruct (@stop_calls s0 st Hr Hrec) as (S1 & S2 & S3 & S4 & S5).
  destruct (stop_stops s0) as (_ & _ & S9 & S6 & S7 & _).
  destruct (stop_finalizes _ Hrec) as (S10 & _).
  pose proof (stop_frame s0) as S8.
  pose proof (commit_error s (exec stopListeningAndRecording s0)) as C0.
  destruct (commit_cells s (exec stopListeningAndRecording s0))
    as ((C1 & C2 & _ & _) & (C5 & C6 & C7) & C8 & C9 & C10 & C11).
  rewrite C0, C1, C2, C5, C6, C7, C8, C9, C10, C11.
  rewrite S1, S2, S3, S4, S5, S6, S7, S8, S9, S10.
  repeat match goal with |- _ /\ _ => split end;
    solve [reflexivity | assumption].
Qed.

(** With no recording recorder in [mediaRecorderRef], the stop operation
    stops none. *)
Lemma stopped_nothing (s s0 : State) :
  recognition s0 <> None ->
  match mediaRecorderRef s0 with
  | Some mr => MediaRecorder.is_recording mr = false
  | None => True
  end ->
  let s' := commit s (exec stopListeningAndRecording s0) in
  isListening s' = false /\
  stop_queued s' = stop_queued s0 /\
  mediaRecorderRef s' = mediaRecorderRef s0 /\
  calls s' = calls s0 ++ [recognition_stop] /\
  error s' = error s0.
Proof.
  intros Hr Hrec; cbv zeta.
  destruct (recognition s0) as [rec|] eqn:Er; [clear Hr | contradiction].
  rewrite (commit_error s (exec stopListeningAndRecording s0)).
  destruct (commit_cells s (exec stopListeningAndRecording s0))
    as ((_ & C2 & _ & _) & (C5 & _ & C7) & C8 & _).
  rewrite C2, C5, C7, C8.
  revert Hrec; by_cases; intros; repeat split; settle.
Qed.

(** The recorder's [stop] event, whatever [streamRef] holds. *)
Lemma step_stop_event (s : State) (q : nat) :
  mounted s = true -> stop_queued s = S q ->
  let s' := step s recorder_stopped in
  (mounted s' = true /\ isListening s' = isListening s /\
   error s' = error s /\ recordings s' = recordings s) /\
  calls s' = calls s ++ match streamRef s with
                        | Some st => [tracks_stop st]
                        | None => []
                        end /\
  streamRef s' = None /\
  metadata_pending s' = metadata_pending s ++ [audioChunksRef s] /\
  audioChunksRef s' = [].
Proof.
  intros Hm Hq; cells s.
  unfold step, commit, exec; cbn.
  destruct streamRef0; cbn; rewrite eqb_reflx, Mode_eqb_refl, ?app_nil_r;
    repeat split.
Qed.

Lemma step_loadedmetadata (s : State) (k : nat) (audioBlob : Blob)
  (rest : list Blob) (now : Z) (duration : Duration) :
  mounted s = true ->
  pick k (metadata_pending s) = Some (audioBlob, rest) ->
  step s (audio_loadedmetadata k now duration) =
  set_recordings
    (recordings s
     ++ [Recording.mk now audioBlob (floor_minutes duration)
           (floor_seconds duration)])
    (set_metadata_pending rest s).
Proof.
  intros Hm Hp; unfold step; rewrite Hm.
  unfold exec, handler, bind at 1, gets; cbv beta iota; rewrite Hp.
  unfold_handlers; cbn; rewrite eqb_reflx, Mode_eqb_refl; reflexivity.
Qed.

(** Once the recorder was stopped, the chunks it still delivers, its
    [stop] event and the metadata of the clip make one recording, and the
    stream in [streamRef] is released. *)
Lemma clip_is_made (s : State) (q : nat) (late : list N) (now : Z)
  (duration : Duration) :
  mounted s = true -> mediaRecorderRef s <> None -> stop_queued s = S q ->
  let s' :=
    run s (map recorder_dataavailable late
           ++ [recorder_stopped;
               audio_loadedmetadata (length (metadata_pending s))
                 now duration]) in
  recordings s' =
    recordings s
    ++ [Recording.mk now (audioChunksRef s ++ filter (N.ltb 0) late)
          (floor_minutes duration) (floor_seconds duration)] /\
  calls s' = calls s ++ match streamRef s with
                        | Some st => [tracks_stop st]
                        | None => []
                        end /\
  streamRef s' = None /\
  isListening s' = isListening s /\
  error s' = error s.
Proof.
  intros Hm Hrec Hq; cbv zeta.
  rewrite run_app, (@chunks_arrive s late Hm Hrec); cbn [run fold_left].
  set (chunks := audioChunksRef s ++ filter (N.ltb 0) late).
  destruct (@step_stop_event (set_audioChunksRef chunks s) q Hm Hq)
    as ((Hm1 & Hl1 & He1 & Hr1) & Hc1 & Hs1 & Hmp1 & _).
  assert (Hp : pick (length (metadata_pending s))
                 (metadata_pending
                    (step (set_audioChunksRef chunks s) recorder_stopped))
               = Some (chunks, metadata_pending s ++ []))
    by (rewrite Hmp1; apply pick_app).
  rewrite (@step_loadedmetadata _ _ _ _ now duration Hm1 Hp).
  cbn [recordings calls streamRef isListening error set_recordings
       set_metadata_pending].
  rewrite Hr1, Hc1, Hs1, Hl1, He1.
  repeat match goal with |- _ /\ _ => split end; reflexivity.
Qed.

Lemma run_cons (s : State) (e : Event) (tr : list Event) :
  run s (e :: tr) = run (step s e) tr.
Proof. reflexivity. Qed.

Lemma run_nil (s : State) : run s [] = s.
Proof. reflexivity. Qed.

(** X11: a whole session.  From a state in which nobody listens, a click
    on the microphone button, the grant of the microphone, the click that
    stops, the recorder's [stop] event and the metadata of the clip, with
    any chunks of audio delivered before the stopping click and any
    delivered between it and the [stop] event, leave exactly one new
    recording: its id is the clock reading at the last event, its clip
    holds the chunks that were left over from before followed by the chunks
    of the session that are not empty, in order, and its two duration
    numbers are the floors the handler computes, [Infinity] and [NaN]
    included.  The stream of the session was acquired once and released
    once, and nobody listens any more. *)
Theorem session_makes_one_recording (s : State) (early late : list N)
  (now : Z) (duration : Duration) :
  mounted s = true -> recognition s <> None ->
  isTranslating s = false -> isListening s = false ->
  let st := length (acquired (calls s)) in
  let s' :=
    run s ([click_mic;
            getUserMedia_settled (length (getUserMedia_pending s)) all_succeed]
           ++ map recorder_dataavailable early
           ++ [click_mic]
           ++ map recorder_dataavailable late
           ++ [recorder_stopped;
               audio_loadedmetadata (length (metadata_pending s))
                 now duration]) in
  recordings s' =
    recordings s
    ++ [Recording.mk now
          (audioChunksRef s ++ filter (N.ltb 0) early
           ++ filter (N.ltb 0) late)
          (floor_minutes duration) (floor_seconds duration)] /\
  acquired (calls s') = acquired (calls s) ++ [st] /\
  released (calls s') = released (calls s) ++ [st] /\
  isListening s' = false /\ streamRef s' = None.
Proof.
  intros Hm Hr Ht Hl; cbv zeta.
  (* the click and the grant *)
  rewrite run_app, 2!run_cons, run_nil.
  rewrite (@step_start_click s Hm Hr Ht Hl).
  set (s0 := set_getUserMedia_pending _ s).
  destruct (@start_session s0 (length (getUserMedia_pending s)) (currentLang s)
              (getUserMedia_pending s ++ []) Hm Hl (pick_app _ _ _))
    as ((Hm1 & Hl1 & Ht1 & Hr1) & (Hrec1 & Hs1) & Hc1 & Hch1 & Hrs1 & Hmp1).
  set (s1 := step s0 _) in *.
  (* the chunks before the stop *)
  assert (Hrec1' : mediaRecorderRef s1 <> None) by (rewrite Hrec1; discriminate).
  rewrite run_app, (@chunks_arrive s1 early Hm1 Hrec1').
  set (s2 := set_audioChunksRef _ s1).
  (* the click that stops *)
  rewrite run_app, run_cons, run_nil.
  rewrite (@step_stop_click s2 Hm1 (eq_trans Ht1 Ht) Hl1).
  destruct (@stopped_session s2 (set_intentionalStop true s2)
              (length (acquired (calls s0))) Hm1 Hr1 Hrec1)
    as ((Hm3 & Hl3 & Hq3 & Hs3 & Hrec3) & Hc3 & Hch3 & Hrs3 & Hmp3 & _).
  set (s3 := commit s2 _) in *.
  (* the chunks after it, the stop event and the metadata *)
  assert (Hrec3' : mediaRecorderRef s3 <> None) by (rewrite Hrec3; discriminate).
  replace (length (metadata_pending s)) with (length (metadata_pending s3))
    by (rewrite Hmp3; change (metadata_pending (set_intentionalStop true s2))
          with (metadata_pending s1); rewrite Hmp1; reflexivity).
  destruct (@clip_is_made s3 _ late now duration Hm3 Hrec3' Hq3)
    as (R1 & R2 & R3 & R4 & _).
  rewrite R1, R2, R3, R4, Hrs3, Hch3, Hc3, Hs3, Hl3.
  change (recordings (set_intentionalStop true s2)) with (recordings s1).
  change (audioChunksRef (set_intentionalStop true s2))
    with (audioChunksRef s1 ++ filter (N.ltb 0) early).
  change (calls (set_intentionalStop true s2)) with (calls s1).
  change (streamRef (set_intentionalStop true s2)) with (streamRef s1).
  rewrite Hrs1, Hch1, Hc1, Hs1, !acquired_app, !released_app; cbn.
  rewrite !app_nil_r, <- !app_assoc.
  repeat match goal with |- _ /\ _ => split end; reflexivity.
Qed.

Lemma session_makes_one_recording_witness :
  recordings
    (run (mount true true)
       [click_mic; getUserMedia_settled 0 all_succeed;
        click_mic;
        recorder_dataavailable 0; recorder_dataavailable 5;
        recorder_stopped; audio_loadedmetadata 0 42 infinite])
  = [Recording.mk 42 [5]%N Infinity NaN].
Proof.
  destruct (@session_makes_one_recording (mount true true) [] [0; 5]%N 42%Z
              infinite eq_refl) as (H & _).
  - discriminate.
  - reflexivity.
  - reflexivity.
  - exact H.
Defined.

(** ** Recognition errors, to the clip *)





(** ** The end of a recognition session *)

Lemma stop_recognition (s : State) :
  recognition (exec stopListeningAndRecording s) = recognition s.
Proof.
  by_cases; settle.
Qed.

Lemma commit_flag (s s1 : State) :
  intentionalStop (commit s s1) = intentionalStop s1.
Proof.
  unfold commit; destruct (_ && _); reflexivity.
Qed.

(** An [end] event that finds nobody listening runs the stop operation. *)
Lemma step_end_idle (s : State) (restart : option jsstring) :
  mounted s = true -> recognition s <> None ->
  intentionalStop s = false -> isListening s = false ->
  step s (recognition_end restart) = commit s (exec stopListeningAndRecording s).
Proof.
  intros Hm Hr Hi Hl; unfold step; rewrite Hm; f_equal.
  unfold exec, handler, handleEnd, bind, gets; cbv beta iota.
  destruct (recognition s); [|contradiction].
  cbv beta iota; rewrite Hi; cbv beta iota; rewrite Hl; reflexivity.
Qed.

(** A start that gets as far as the engine sets the engine's language,
    whether or not the engine then starts. *)
Lemma start_sets_language (s : State) (l : Language) (msg : jsstring) :
  recognition (exec (startListeningAndRecording_resume l all_succeed) s)
  = Some (SpeechRecognition.mk (Some l)) /\
  (let s' := exec (startListeningAndRecording_resume l
                     (recognition_start_throws msg)) s in
   recognition s' = Some (SpeechRecognition.mk (Some l)) /\
   isListening s' = isListening s /\
   intentionalStop s' = false).
Proof.
  split; [|cbv zeta; repeat split]; unfold_handlers; cbn; reflexivity.
Qed.

(** Without a start, the engine keeps its language. *)
Lemma recognition_run (s : State) (tr : list Event)
  (rec : SpeechRecognition.t) :
  existsb is_start tr = false -> recognition s = Some rec ->
  recognition (run s tr) = Some rec.
Proof.
  revert s; induction tr as [|e tr IH]; intros s Hs Hr; [exact Hr|].
  cbn in Hs; apply orb_false_elim in Hs; destruct Hs as [He Hs].
  change (run s (e :: tr)) with (run (step s e) tr).
  apply IH; [exact Hs | apply (@restart_step s e rec He Hr)].
Qed.

(** C6, as the code has it: when the engine ends a session while
    listening, with no intentional stop requested and in continuous mode,
    the handler calls [recognition.start()] again without touching the
    engine's language; if the call succeeds nothing else changes, so the
    recorder keeps recording into the same clip, and if the call throws the
    session is stopped.  With an intentional stop requested, or in
    turn-taking mode, the session is stopped.  Stopping ends the listening,
    stops the recorder once and leaves the error message as it was.

    The language of the restart is the one the engine holds when the event
    arrives.  No event but the continuation of a start changes it; that
    continuation sets it just before it starts the engine, also when the
    engine then refuses to start and the session that is listening goes on.

    The flag of the intentional stop is false whenever an event is handled:
    the click that stops a session sets it and the stop operation, run by
    the same click, resets it.  So the click itself stops the recorder, and
    the [end] event that follows finds nobody listening and stops no
    recorder a second time. *)
Theorem session_end_policy (s : State) (st : MediaStream)
  (rec : SpeechRecognition.t) :
  Listening s st ->
  recognition s = Some rec ->
  (intentionalStop s = false -> mode s = continuous ->
   exec (handleEnd None) s =
     set_calls (calls s ++ [recognition_start (SpeechRecognition.lang rec)]) s
   /\ forall msg,
       exec (handleEnd (Some msg)) s = exec stopListeningAndRecording s)
  /\ (intentionalStop s = true \/ mode s = turn_taking ->
      forall restart,
        exec (handleEnd restart) s = exec stopListeningAndRecording s)
  /\ (let s' := exec stopListeningAndRecording s in
      isListening s' = false /\
      mediaRecorderRef s' =
        Some (MediaRecorder.mk MediaRecorder.inactive st) /\
      stop_queued s' = S (stop_queued s) /\
      recognition s' = recognition s /\
      error s' = error s)
  /\ (forall tr,
         existsb is_start tr = false -> recognition (run s tr) = Some rec)
  /\ (forall l msg,
         let s' := exec (startListeningAndRecording_resume l
                           (recognition_start_throws msg)) s in
         recognition s' = Some (SpeechRecognition.mk (Some l)) /\
         isListening s' = true)
  /\ (forall API_KEY SpeechRecognition tr,
         intentionalStop (run (mount API_KEY SpeechRecognition) tr) = false)
  /\ (mounted s = true -> isTranslating s = false ->
      let s1 := step s click_mic in
      (intentionalStop s1 = false /\
       isListening s1 = false /\
       mediaRecorderRef s1 =
         Some (MediaRecorder.mk MediaRecorder.inactive st) /\
       stop_queued s1 = S (stop_queued s) /\
       calls s1 = calls s ++ [recognition_stop; recorder_stop st]) /\
      forall restart,
        let s2 := step s1 (recognition_end restart) in
        isListening s2 = false /\
        mediaRecorderRef s2 = mediaRecorderRef s1 /\
        stop_queued s2 = stop_queued s1 /\
        calls s2 = calls s1 ++ [recognition_stop] /\
        error s2 = error s).
Proof.
  intros [Hl Hm] Hr.
  split.
  { intros Hi Hmode; split; [|intros msg];
      unfold exec, handleEnd, SpeechRecognition_start, try_catch, bind, gets,
        call, modify, throw; cbn;
      rewrite Hi; cbn; rewrite Hl, Hmode; cbn; rewrite ?Hr; reflexivity. }
  split.
  { intros H restart.
    unfold exec, handleEnd, bind, gets; cbn.
    destruct H as [-> | Hmode]; [reflexivity|].
    destruct (intentionalStop s); cbn; [reflexivity|].
    rewrite Hl, Hmode; reflexivity. }
  split.
  { cbv zeta.
    destruct (stop_stops s) as (H1 & _ & H2 & _).
    destruct (stop_finalizes _ Hm) as (H3 & H4).
    pose proof (stop_recognition s) as H5.
    split; [exact H1|]. split; [exact H3|]. split; [exact H4|].
    split; [exact H5 | exact H2]. }
  split.
  { intros tr Hs; apply recognition_run; assumption. }
  split.
  { intros l msg; cbv zeta.
    destruct (start_sets_language s l msg) as (_ & H1 & H2 & _).
    split; [exact H1 | rewrite H2; exact Hl]. }
  split.
  { intros API_KEY SR tr; apply intentionalStop_run.
    destruct API_KEY, SR; reflexivity. }
  intros Hmt Ht; cbv zeta.
  rewrite (@step_stop_click s Hmt Ht Hl).
  set (s0 := set_intentionalStop true s).
  assert (Hr0 : recognition s0 <> None)
    by (unfold s0; destruct s; cbn in *; congruence).
  assert (Hm0 : mediaRecorderRef s0
                = Some (MediaRecorder.mk MediaRecorder.recording st))
    by (unfold s0; destruct s; cbn in *; congruence).
  assert (Hmt0 : mounted s0 = true)
    by (unfold s0; destruct s; cbn in *; congruence).
  assert (Hq0 : stop_queued s0 = stop_queued s)
    by (unfold s0; destruct s; reflexivity).
  assert (Hc0 : calls s0 = calls s) by (unfold s0; destruct s; reflexivity).
  assert (He0 : error s0 = error s) by (unfold s0; destruct s; reflexivity).
  destruct (@stopped_session s s0 st Hmt0 Hr0 Hm0)
    as ((Hm1 & Hl1 & Hq1 & _ & Hrec1) & Hc1 & _ & _ & _ & He1).
  pose proof (commit_flag s (exec stopListeningAndRecording s0)) as Hf1.
  destruct (stop_stops s0) as (_ & Hf0 & _).
  destruct (commit_cells s (exec stopListeningAndRecording s0))
    as ((_ & _ & _ & Hrc) & _).
  rewrite stop_recognition in Hrc.
  set (s1 := commit s (exec stopListeningAndRecording s0)) in *.
  rewrite Hf0 in Hf1.
  split.
  { split; [exact Hf1|]. split; [exact Hl1|]. split; [exact Hrec1|].
    split; [rewrite Hq1, Hq0; reflexivity | rewrite Hc1, Hc0; reflexivity]. }
  intros restart.
  assert (Hr1 : recognition s1 <> None) by (rewrite Hrc; exact Hr0).
  rewrite (@step_end_idle s1 restart Hm1 Hr1 Hf1 Hl1).
  assert (Hn : match mediaRecorderRef s1 with
               | Some mr => MediaRecorder.is_recording mr = false
               | None => True
               end) by (rewrite Hrec1; reflexivity).
  destruct (@stopped_nothing s1 s1 Hr1 Hn) as (N1 & N2 & N3 & N4 & N5).
  split; [exact N1|]. split; [exact N3|]. split; [exact N2|].
  split; [exact N4 | rewrite N5, He1; exact He0].
Qed.

Lemma session_end_policy_witness :
  (exec (handleEnd None) listening_continuous =
     set_calls (calls listening_continuous ++ [recognition_start (Some ja_JP)])
       listening_continuous) /\
  (exec (handleEnd None) listening_turn_taking =
     exec stopListeningAndRecording listening_turn_taking) /\
  (exec (handleEnd None) (set_intentionalStop true listening_continuous) =
     exec stopListeningAndRecording
       (set_intentionalStop true listening_continuous)) /\
  (let s1 := step listening_continuous click_mic in
   intentionalStop s1 = false /\
   calls (step s1 (recognition_end None)) = calls s1 ++ [recognition_stop]).
Proof.
  assert (HC : Listening listening_continuous 0) by (split; reflexivity).
  assert (HT : Listening listening_turn_taking 0) by (split; reflexivity).
  assert (HF : Listening (set_intentionalStop true listening_continuous) 0)
    by (split; reflexivity).
  split.
  { destruct (@session_end_policy listening_continuous 0
                (SpeechRecognition.mk (Some ja_JP)) HC eq_refl) as (H & _).
    destruct (H eq_refl eq_refl) as (H1 & _); exact H1. }
  split.
  { destruct (@session_end_policy listening_turn_taking 0
                (SpeechRecognition.mk (Some ja_JP)) HT eq_refl)
      as (_ & H & _).
    exact (H (or_intror eq_refl) None). }
  split.
  { destruct (@session_end_policy
                (set_intentionalStop true listening_continuous) 0
                (SpeechRecognition.mk (Some ja_JP)) HF eq_refl)
      as (_ & H & _).
    exact (H (or_introl eq_refl) None). }
  destruct (@session_end_policy listening_continuous 0
              (SpeechRecognition.mk (Some ja_JP)) HC eq_refl)
    as (_ & _ & _ & _ & _ & _ & H).
  destruct (H eq_refl eq_refl) as ((H1 & _) & H2).
  destruct (H2 None) as (_ & _ & _ & H3 & _).
  cbv zeta; split; [exact H1 | exact H3].
Defined.


(** The language of a restart need not be the language the session was
    started with.  Two clicks before the microphone is granted suspend two
    starts, the second after the language button was used.  The first
    starts a session in Japanese; the second sets the engine's language to
    Chinese and then fails at [recognition.start()], which leaves the
    session listening.  The restart after the next [end] event runs in
    Chinese. *)
Lemma restart_in_another_language :
  let s := run (mount true true)
             [click_mode; click_mic; click_lang; click_mic;
              getUserMedia_settled 0 all_succeed;
              getUserMedia_settled 0
                (recognition_start_throws (lit "InvalidStateError"))] in
  (isListening s = true /\ intentionalStop s = false /\ mode s = continuous) /\
  starts (calls s) = [Some ja_JP] /\
  starts (calls (step s (recognition_end None))) = [Some ja_JP; Some zh_TW].
Proof.
  vm_compute; repeat split; reflexivity.
Qed.

(** ** A translation submitted in continuous mode *)

(** C5, as the claim has it, fails for a translation that was submitted in
    continuous mode and succeeds in turn-taking mode: the session ended
    with an error while the request was in flight and the user switched the
    mode.  The translation succeeds, no button is touched, and the language
    stays. *)
Lemma continuous_request_does_not_toggle :
  let s := run (mount true true)
             [click_mode; click_mic; getUserMedia_settled 0 all_succeed;
              onFinal (lit "A") 1; recognition_error (lit "network");
              click_mode] in
  let tr := [generateContent_settled 0 (fulfilled (lit "a"))] in
  (mode s = turn_taking /\ currentLang s = ja_JP) /\
  (existsb is_manual tr = false /\ successes s tr = 1) /\
  currentLang (run s tr) = ja_JP /\
  map LogEntry.translated (log (run s tr)) = [Some (lit "a")].
Proof.
  vm_compute; repeat split; reflexivity.
Qed.

(** ** Recordings stay until they are deleted *)

Lemma recordings_step (s : State) (e : Event) :
  recordings (step s e) =
  match e with
  | click_delete id =>
      if mounted s
      then filter (fun r => negb (Z.eqb (Recording.id r) id)) (recordings s)
      else recordings s
  | audio_loadedmetadata k now duration =>
      match pick k (metadata_pending s) with
      | Some (audioBlob, _) =>
          if mounted s
          then recordings s
               ++ [Recording.mk now audioBlob
                     (floor_minutes duration) (floor_seconds duration)]
          else recordings s
      | None => recordings s
      end
  | _ => recordings s
  end.
Proof.
  destruct e; by_cases; settle.
Qed.

(** X12: a recording stays, unchanged, until the delete button is clicked
    for its id: along any trace, a recording that is there at the start is
    still there at the end unless the trace has a delete click with its id.
    The click removes all the recordings with that id and no others.
    Recordings are added only when the metadata of a clip arrive, one per
    event, so a clip whose metadata never arrive leaves no recording. *)
Theorem recordings_stay_until_deleted (s : State) (tr : list Event) :
  (forall r,
      In r (recordings s) -> ~ In (Recording.id r) (deleted tr) ->
      In r (recordings (run s tr))) /\
  length (recordings (run s tr))
  <= length (recordings s) + length (filter is_loadedmetadata tr) /\
  (forall id,
      mounted s = true ->
      recordings (step s (click_delete id))
      = filter (fun r => negb (Z.eqb (Recording.id r) id)) (recordings s)).
Proof.
  split; [|split].
  - revert s; induction tr as [|e tr IH]; intros s r Hin Hd; [exact Hin|].
    change (run s (e :: tr)) with (run (step s e) tr).
    apply IH.
    + rewrite recordings_step; destruct e; try exact Hin.
      * destruct (pick k (metadata_pending s)) as [[audioBlob rest]|];
          [|exact Hin].
        destruct (mounted s); [|exact Hin].
        apply in_or_app; left; exact Hin.
      * destruct (mounted s); [|exact Hin].
        apply filter_In; split; [exact Hin|].
        apply negb_true_iff, Z.eqb_neq; intros E.
        apply Hd; cbn; left; symmetry; exact E.
    + intros H; apply Hd; unfold deleted; cbn [flat_map].
      apply in_or_app; right; exact H.
  - revert s; induction tr as [|e tr IH]; intros s; [cbn; lia|].
    change (run s (e :: tr)) with (run (step s e) tr).
    specialize (IH (step s e)); rewrite recordings_step in IH.
    assert (L : forall id,
               length (filter (fun r => negb (Z.eqb (Recording.id r) id))
                         (recordings s)) <= length (recordings s))
      by (intros id; apply filter_length_le).
    destruct e; cbn [filter is_loadedmetadata length]; try lia.
    + destruct (pick k (metadata_pending s)) as [[audioBlob rest]|];
        [|lia].
      destruct (mounted s); [|lia].
      rewrite length_app in IH; cbn in IH; lia.
    + destruct (mounted s); [|lia].
      specialize (L id); lia.
  - intros id Hm; rewrite recordings_step, Hm; reflexivity.
Qed.

Lemma recordings_stay_until_deleted_witness :
  let s := run listening_turn_taking
             [recorder_dataavailable 4; click_mic; recorder_stopped;
              audio_loadedmetadata 0 10 (finite 2)] in
  let tr := [click_mic; getUserMedia_settled 0 all_succeed;
             recorder_dataavailable 6; click_mic; recorder_stopped;
             audio_loadedmetadata 0 20 infinite] in
  let kept := Recording.mk 10 [4]%N (integer 0) (integer 2) in
  recordings s = [kept] /\
  In kept (recordings (run s (tr ++ [click_delete 20]))) /\
  recordings (run s tr) = [kept; Recording.mk 20 [6]%N Infinity NaN] /\
  recordings (run s (tr ++ [click_delete 20])) = [kept].
Proof.
  cbv zeta.
  split; [vm_compute; reflexivity|].
  split; [|split; vm_compute; reflexivity].
  destruct (recordings_stay_until_deleted
              (run listening_turn_taking
                 [recorder_dataavailable 4; click_mic; recorder_stopped;
                  audio_loadedmetadata 0 10 (finite 2)])
              ([click_mic; getUserMedia_settled 0 all_succeed;
                recorder_dataavailable 6; click_mic; recorder_stopped;
                audio_loadedmetadata 0 20 infinite] ++ [click_delete 20]))
    as [H _].
  apply H.
  - vm_compute; left; reflexivity.
  - vm_compute; intros [E | []]; discriminate E.
Defined.
